(** * Spotify-LLD: a shallow embedding of [main.cpp]

    The music player of [main.cpp] is a playlist, three play strategies
    behind one interface, three output devices behind another, an engine
    that holds raw pointers to one of each, and a facade that owns the
    objects the engine points to.

    The embedding follows the classes of the source, one module per class.
    [size_t] is [N] with the wrap-around at [2^64] written out, a [vector]
    is a [list], a thrown [runtime_error] is a [Throw] outcome that keeps
    the state reached so far, objects that are pointed to live in a store
    of finite maps, and [cout] is the list of lines written so far. *)

From Stdlib Require Import String ZArith NArith List Lia.
From stdpp Require Import base option list gmap.

Local Open Scope string_scope.
Local Open Scope N_scope.

(** ** Machine integers *)

(** [size_t] is 64 bits wide; [wrap] is the reduction every unsigned
    operation ends with. *)
Definition SIZE_WIDTH : N := 64.
Definition wrap (n : N) : N := n mod 2 ^ SIZE_WIDTH.

(** The conversion [int -> size_t] of [rand() % playlist.size()]. *)
Definition size_t_of_int (r : Z) : N := Z.to_N (r mod 2 ^ Z.of_N SIZE_WIDTH).

(** ** Outcomes *)

(** [std::runtime_error] carries its message. *)
Inductive runtime_error : Type :=
  RuntimeError (what : string).

(** The names the specification gives to the messages of the source. *)
Definition EmptyPlaylist : runtime_error := RuntimeError "Playlist is empty".
Definition EmptyQueue : runtime_error := RuntimeError "Custom queue is empty".
Definition IndexOutOfRange : runtime_error := RuntimeError "Queue index out of range".
Definition NotConfigured : runtime_error := RuntimeError "AudioEngine not configured".
Definition DeviceCreationFailed : runtime_error := RuntimeError "Failed to create device".
Definition InvalidStrategy : runtime_error := RuntimeError "Invalid strategy type".
Definition InternalInvariantViolation : runtime_error :=
  RuntimeError "Failed to cast to CustomQueueStrategy".

(** A call returns, throws, or has no defined behaviour (an index past the
    end of a vector, a null or dangling pointer followed). *)
Inductive result (A : Type) : Type :=
  | Ok (a : A)
  | Throw (e : runtime_error)
  | Undefined.
Arguments Ok {A} a.
Arguments Throw {A} e.
Arguments Undefined {A}.

(** Stateful code: the state reached is returned with every outcome, since
    what a method did before it threw stays done. *)
Definition M (S A : Type) : Type := S -> result A * S.

Definition ret {S A} (a : A) : M S A := fun s => (Ok a, s).
Definition throw {S A} (e : runtime_error) : M S A := fun s => (Throw e, s).
Definition undefined {S A} : M S A := fun s => (Undefined, s).
Definition bind {S A B} (m : M S A) (k : A -> M S B) : M S B :=
  fun s =>
    match m s with
    | (Ok a, s') => k a s'
    | (Throw e, s') => (Throw e, s')
    | (Undefined, s') => (Undefined, s')
    end.
Definition get {S} : M S S := fun s => (Ok s, s).
Definition put {S} (s : S) : M S unit := fun _ => (Ok tt, s).
Definition modify {S} (f : S -> S) : M S unit := fun s => (Ok tt, f s).

Declare Scope cpp_scope.
Delimit Scope cpp_scope with cpp.
Notation "'let!' x ':=' c1 'in' c2" := (bind c1 (fun x => c2))
  (at level 10, x name, c1 at level 100, c2 at level 200) : cpp_scope.
Notation "c1 ;; c2" := (bind c1 (fun _ => c2))
  (at level 100, c2 at level 200, right associativity) : cpp_scope.
Local Open Scope cpp_scope.

(** ** Models *)

Record Song : Type := { title : string; artist : string }.

Module Playlist.
Record t : Type := { songs : list Song }.

Definition empty : t := {| songs := [] |}.
Definition getSongs (self : t) : list Song := songs self.
Definition size (self : t) : N := N.of_nat (length (songs self)).

Definition addSong (song : Song) (self : t) : t :=
  {| songs := songs self ++ [song] |}.

(** [songs.erase(songs.begin() + index)] under the guard of the source. *)
Definition removeSong (index : N) (self : t) : t :=
  if index <? size self
  then {| songs := delete (N.to_nat index) (songs self) |}
  else self.

(** [vector::size] returns a [size_t]. *)
Definition fits (self : t) : Prop := size self < 2 ^ SIZE_WIDTH.

(** [getSongs()[i]]. *)
Definition at_ (self : t) (i : N) : option Song := songs self !! N.to_nat i.
End Playlist.

(** ** Enums

    An [enum class] has underlying type [int], and every [int] is a value
    of it: the [default] branches of the two factories are there for the
    values that are not enumerators. *)
Definition DeviceType : Type := Z.
Definition BLUETOOTH : DeviceType := 0%Z.
Definition WIRED : DeviceType := 1%Z.
Definition HEADPHONES : DeviceType := 2%Z.

Definition PlayStrategyType : Type := Z.
Definition SEQUENTIAL : PlayStrategyType := 0%Z.
Definition RANDOM : PlayStrategyType := 1%Z.
Definition CUSTOM_QUEUE : PlayStrategyType := 2%Z.

(** ** The random source

    [rand()] reads a process-wide generator.  [tape] lists the values its
    successive calls return, whatever seed [srand] installed before each;
    [calls] counts the calls made. *)
Module Rng.
Record t : Type := { tape : nat -> Z; calls : nat }.

Definition rand : M t Z :=
  fun g => (Ok (tape g (calls g)), {| tape := tape g; calls := S (calls g) |}).
End Rng.

(** ** Play strategies *)

Module SequentialPlayStrategy.
Record t : Type := { index : N }.

Definition init : t := {| index := 0 |}.

Definition getNextSong (playlist : Playlist.t) : M t Song :=
  fun self =>
    if Playlist.size playlist =? 0 then (Throw EmptyPlaylist, self)
    else
      match Playlist.at_ playlist (index self mod Playlist.size playlist) with
      | Some s =>
          (Ok s, {| index := wrap (index self + 1) mod Playlist.size playlist |})
      | None => (Undefined, self)
      end.

Definition reset : M t unit := fun _ => (Ok tt, {| index := 0 |}).
End SequentialPlayStrategy.

Module RandomPlayStrategy.
(** The class has no data member. *)
Definition t : Type := unit.
Definition init : t := tt.

(** The generator is read only after the emptiness test. *)
Definition getNextSong (playlist : Playlist.t) : M Rng.t Song :=
  if Playlist.size playlist =? 0 then throw EmptyPlaylist
  else
    let! r := Rng.rand in
    let idx := size_t_of_int r mod Playlist.size playlist in
    match Playlist.at_ playlist idx with
    | Some s => ret s
    | None => undefined
    end.

Definition reset : M t unit := fun self => (Ok tt, self).
End RandomPlayStrategy.

Module CustomQueueStrategy.
Record t : Type := { queueIndices : list N; pos : N }.

Definition init : t := {| queueIndices := []; pos := 0 |}.

Definition queue_size (self : t) : N := N.of_nat (length (queueIndices self)).

Definition setQueue (q : list N) : M t unit :=
  fun _ => (Ok tt, {| queueIndices := q; pos := 0 |}).

Definition getNextSong (playlist : Playlist.t) : M t Song :=
  fun self =>
    if Playlist.size playlist =? 0 then (Throw EmptyPlaylist, self)
    else if queue_size self =? 0 then (Throw EmptyQueue, self)
    else
      match queueIndices self !! N.to_nat (pos self mod queue_size self) with
      | None => (Undefined, self)
      | Some idx =>
          if Playlist.size playlist <=? idx then (Throw IndexOutOfRange, self)
          else
            match Playlist.at_ playlist idx with
            | None => (Undefined, self)
            | Some s =>
                (Ok s, {| queueIndices := queueIndices self;
                          pos := wrap (pos self + 1) mod queue_size self |})
            end
      end.

Definition reset : M t unit :=
  fun self => (Ok tt, {| queueIndices := queueIndices self; pos := 0 |}).
End CustomQueueStrategy.

(** The [PlayStrategy] interface: an object is one of the three variants,
    and a virtual call runs the method of the variant. *)
Module PlayStrategy.
Inductive t : Type :=
  | Sequential (s : SequentialPlayStrategy.t)
  | Random (s : RandomPlayStrategy.t)
  | CustomQueue (s : CustomQueueStrategy.t).

Definition getNextSong (playlist : Playlist.t) : M (t * Rng.t) Song :=
  fun '(self, g) =>
    match self with
    | Sequential s =>
        let '(r, s') := SequentialPlayStrategy.getNextSong playlist s in
        (r, (Sequential s', g))
    | Random s =>
        let '(r, g') := RandomPlayStrategy.getNextSong playlist g in
        (r, (Random s, g'))
    | CustomQueue s =>
        let '(r, s') := CustomQueueStrategy.getNextSong playlist s in
        (r, (CustomQueue s', g))
    end.

Definition reset : M t unit :=
  fun self =>
    match self with
    | Sequential s =>
        let '(r, s') := SequentialPlayStrategy.reset s in (r, Sequential s')
    | Random s =>
        let '(r, s') := RandomPlayStrategy.reset s in (r, Random s')
    | CustomQueue s =>
        let '(r, s') := CustomQueueStrategy.reset s in (r, CustomQueue s')
    end.
End PlayStrategy.

(** ** Output devices

    [cout] is the list of the lines written, oldest first. *)
Module BluetoothSpeakerAPI.
Definition play (data : string) : M (list string) unit :=
  modify (fun out : list string => (out ++ [String.append "[BluetoothSpeakerAPI] Playing data: " data])%list).
End BluetoothSpeakerAPI.

Module WiredSpeakerAPI.
Definition play (data : string) : M (list string) unit :=
  modify (fun out : list string => (out ++ [String.append "[WiredSpeakerAPI] Playing data: " data])%list).
End WiredSpeakerAPI.

Module HeadphonesAPI.
Definition play (data : string) : M (list string) unit :=
  modify (fun out : list string => (out ++ [String.append "[HeadphonesAPI] Playing data: " data])%list).
End HeadphonesAPI.

Definition describe (mode : string) (song : Song) : string :=
  String.append mode
    (String.append " play: "
       (String.append (title song) (String.append " by " (artist song)))).

Module IAudioOutputDevice.
Inductive t : Type :=
  | BluetoothSpeakerAdapter
  | WiredSpeakerAdapter
  | HeadphonesAdapter.

Definition playSound (self : t) (song : Song) : M (list string) unit :=
  match self with
  | BluetoothSpeakerAdapter => BluetoothSpeakerAPI.play (describe "Bluetooth" song)
  | WiredSpeakerAdapter => WiredSpeakerAPI.play (describe "Wired" song)
  | HeadphonesAdapter => HeadphonesAPI.play (describe "Headphones" song)
  end.
End IAudioOutputDevice.

(** ** The store

    Objects that something points to are kept by address.  Addresses are
    handed out in increasing order and never again after [delete], so a
    pointer to a destroyed object finds nothing, and following it is
    [Undefined].  A pointer is an [option]: [None] is [nullptr]. *)
Abbreviation loc := positive.

Record World : Type := {
  playlists : gmap positive Playlist.t;
  strategies : gmap positive PlayStrategy.t;
  devices : gmap positive IAudioOutputDevice.t;
  next_loc : positive;
  rng : Rng.t;
  cout : list string
}.

Definition set_playlists (m : gmap positive Playlist.t) (w : World) : World :=
  {| playlists := m; strategies := strategies w; devices := devices w;
     next_loc := next_loc w; rng := rng w; cout := cout w |}.
Definition set_strategies (m : gmap positive PlayStrategy.t) (w : World) : World :=
  {| playlists := playlists w; strategies := m; devices := devices w;
     next_loc := next_loc w; rng := rng w; cout := cout w |}.
Definition set_devices (m : gmap positive IAudioOutputDevice.t) (w : World) : World :=
  {| playlists := playlists w; strategies := strategies w; devices := m;
     next_loc := next_loc w; rng := rng w; cout := cout w |}.
Definition set_next_loc (l : loc) (w : World) : World :=
  {| playlists := playlists w; strategies := strategies w; devices := devices w;
     next_loc := l; rng := rng w; cout := cout w |}.
Definition set_rng (g : Rng.t) (w : World) : World :=
  {| playlists := playlists w; strategies := strategies w; devices := devices w;
     next_loc := next_loc w; rng := g; cout := cout w |}.
Definition set_cout (out : list string) (w : World) : World :=
  {| playlists := playlists w; strategies := strategies w; devices := devices w;
     next_loc := next_loc w; rng := rng w; cout := out |}.

(** A process that has allocated nothing and written nothing. *)
Definition boot (g : Rng.t) : World :=
  {| playlists := ∅; strategies := ∅; devices := ∅;
     next_loc := 1%positive; rng := g; cout := [] |}.

Module Store.
(** [make_unique<...>()] and the construction of a member object. *)
Definition new_playlist (p : Playlist.t) : M World loc :=
  fun w =>
    let l := next_loc w in
    (Ok l, set_next_loc (Pos.succ l) (set_playlists (<[l := p]> (playlists w)) w)).
Definition new_strategy (s : PlayStrategy.t) : M World loc :=
  fun w =>
    let l := next_loc w in
    (Ok l, set_next_loc (Pos.succ l) (set_strategies (<[l := s]> (strategies w)) w)).
Definition new_device (d : IAudioOutputDevice.t) : M World loc :=
  fun w =>
    let l := next_loc w in
    (Ok l, set_next_loc (Pos.succ l) (set_devices (<[l := d]> (devices w)) w)).

(** [delete p], as the destructor of a [unique_ptr] runs it. *)
Definition delete_strategy (p : loc) : M World unit :=
  fun w =>
    match strategies w !! p with
    | Some _ => (Ok tt, set_strategies (delete p (strategies w)) w)
    | None => (Undefined, w)
    end.
Definition delete_device (p : loc) : M World unit :=
  fun w =>
    match devices w !! p with
    | Some _ => (Ok tt, set_devices (delete p (devices w)) w)
    | None => (Undefined, w)
    end.

(** [strategy->getNextSong( *playlist )]. *)
Definition getNextSong (ps pl : loc) : M World Song :=
  fun w =>
    match strategies w !! ps, playlists w !! pl with
    | Some st, Some p =>
        let '(r, (st', g')) := PlayStrategy.getNextSong p (st, rng w) in
        (r, set_rng g' (set_strategies (<[ps := st']> (strategies w)) w))
    | _, _ => (Undefined, w)
    end.

(** [strategy->reset()]. *)
Definition reset (ps : loc) : M World unit :=
  fun w =>
    match strategies w !! ps with
    | Some st =>
        let '(r, st') := PlayStrategy.reset st in
        (r, set_strategies (<[ps := st']> (strategies w)) w)
    | None => (Undefined, w)
    end.

(** [device->playSound(s)]. *)
Definition playSound (dev : loc) (s : Song) : M World unit :=
  fun w =>
    match devices w !! dev with
    | Some d =>
        let '(r, out) := IAudioOutputDevice.playSound d s (cout w) in
        (r, set_cout out w)
    | None => (Undefined, w)
    end.
End Store.

(** A method of an object of type [T] runs on the object and the store. *)
Definition liftW {T A} (m : M World A) : M (T * World) A :=
  fun '(self, w) => let '(r, w') := m w in (r, (self, w')).

(** A method of a member object runs on that member. *)
Definition on_member {S T A} (getf : S -> T) (setf : T -> S -> S)
    (m : M (T * World) A) : M (S * World) A :=
  fun '(self, w) =>
    let '(r, (t', w')) := m (getf self, w) in (r, (setf t' self, w')).

(** ** Factories and managers *)

Module DeviceFactory.
(** The [switch]: which adapter a device type selects. *)
Definition adapter (type : DeviceType) : option IAudioOutputDevice.t :=
  if (type =? BLUETOOTH)%Z then Some IAudioOutputDevice.BluetoothSpeakerAdapter
  else if (type =? WIRED)%Z then Some IAudioOutputDevice.WiredSpeakerAdapter
  else if (type =? HEADPHONES)%Z then Some IAudioOutputDevice.HeadphonesAdapter
  else None.

(** [make_unique] of the selected adapter, [nullptr] by default. *)
Definition create (type : DeviceType) : M World (option loc) :=
  match adapter type with
  | Some d => let! l := Store.new_device d in ret (Some l)
  | None => ret None
  end.
End DeviceFactory.

Module PlaylistManager.
(** [playlist] is the address of the member object. *)
Record t : Type := { playlist : loc }.

Definition with_playlist (f : Playlist.t -> Playlist.t) : M (t * World) unit :=
  fun '(self, w) =>
    match playlists w !! playlist self with
    | Some p => (Ok tt, (self, set_playlists (<[playlist self := f p]> (playlists w)) w))
    | None => (Undefined, (self, w))
    end.

Definition addSong (song : Song) : M (t * World) unit :=
  with_playlist (Playlist.addSong song).
Definition removeSong (index : N) : M (t * World) unit :=
  with_playlist (Playlist.removeSong index).
Definition getPlaylist : M (t * World) loc :=
  fun '(self, w) => (Ok (playlist self), (self, w)).
End PlaylistManager.

Module DeviceManager.
Record t : Type := { device : option loc }.

(** Assignment to the [unique_ptr]: the new pointer is stored, then the
    object the old one owned is destroyed. *)
Definition assign (new : option loc) : M (t * World) unit :=
  fun '(self, w) =>
    match device self with
    | Some old =>
        let '(r, w') := Store.delete_device old w in (r, ({| device := new |}, w'))
    | None => (Ok tt, ({| device := new |}, w))
    end.

Definition getDevice : M (t * World) (option loc) :=
  fun '(self, w) => (Ok (device self), (self, w)).

Definition selectDevice (type : DeviceType) : M (t * World) unit :=
  let! new := liftW (DeviceFactory.create type) in
  assign new ;;
  let! d := getDevice in
  match d with
  | None => throw DeviceCreationFailed
  | Some _ => ret tt
  end.
End DeviceManager.

Module StrategyManager.
(** The [switch]: the freshly constructed object a strategy type
    selects.  The constructor of [RandomPlayStrategy] calls [srand]; the
    tape of [Rng] already lists what [rand()] returns after it. *)
Definition fresh (type : PlayStrategyType) : option PlayStrategy.t :=
  if (type =? SEQUENTIAL)%Z then
    Some (PlayStrategy.Sequential SequentialPlayStrategy.init)
  else if (type =? RANDOM)%Z then
    Some (PlayStrategy.Random RandomPlayStrategy.init)
  else if (type =? CUSTOM_QUEUE)%Z then
    Some (PlayStrategy.CustomQueue CustomQueueStrategy.init)
  else None.

Definition createStrategy (type : PlayStrategyType) : M World (option loc) :=
  match fresh type with
  | Some st => let! l := Store.new_strategy st in ret (Some l)
  | None => ret None
  end.
End StrategyManager.

(** ** AudioEngine *)

Module AudioEngine.
Record t : Type := {
  playlist : option loc;
  strategy : option loc;
  device : option loc
}.

Definition init : t := {| playlist := None; strategy := None; device := None |}.

Definition loadPlaylist (pl : loc) : M (t * World) unit :=
  fun '(self, w) =>
    (Ok tt, ({| playlist := Some pl; strategy := strategy self; device := device self |}, w)).

Definition setStrategy (ps : option loc) : M (t * World) unit :=
  fun '(self, w) =>
    let self' := {| playlist := playlist self; strategy := ps; device := device self |} in
    match ps with
    | Some p => liftW (Store.reset p) (self', w)
    | None => (Undefined, (self', w))
    end.

Definition setDevice (dev : option loc) : M (t * World) unit :=
  fun '(self, w) =>
    (Ok tt, ({| playlist := playlist self; strategy := strategy self; device := dev |}, w)).

Definition playNext : M (t * World) unit :=
  fun '(self, w) =>
    match playlist self, strategy self, device self with
    | Some pl, Some ps, Some dev =>
        (let! s := liftW (Store.getNextSong ps pl) in
         liftW (Store.playSound dev s)) (self, w)
    | _, _, _ => (Throw NotConfigured, (self, w))
    end.

(** [for (size_t i = 0; i < count; ++i) playNext();] with [n] the
    iterations still to run. *)
Fixpoint playMultiple_loop (n : nat) : M (t * World) unit :=
  match n with
  | O => ret tt
  | S n' => playNext ;; playMultiple_loop n'
  end.

Definition playMultiple (count : N) : M (t * World) unit :=
  playMultiple_loop (N.to_nat count).
End AudioEngine.

(** ** Facade *)

Module MusicPlayerFacade.
Record t : Type := {
  playlistManager : PlaylistManager.t;
  deviceManager : DeviceManager.t;
  strategyPtr : option loc;
  engine : AudioEngine.t
}.

Definition set_playlistManager (x : PlaylistManager.t) (self : t) : t :=
  {| playlistManager := x; deviceManager := deviceManager self;
     strategyPtr := strategyPtr self; engine := engine self |}.
Definition set_deviceManager (x : DeviceManager.t) (self : t) : t :=
  {| playlistManager := playlistManager self; deviceManager := x;
     strategyPtr := strategyPtr self; engine := engine self |}.
Definition set_strategyPtr (x : option loc) (self : t) : t :=
  {| playlistManager := playlistManager self; deviceManager := deviceManager self;
     strategyPtr := x; engine := engine self |}.
Definition set_engine (x : AudioEngine.t) (self : t) : t :=
  {| playlistManager := playlistManager self; deviceManager := deviceManager self;
     strategyPtr := strategyPtr self; engine := x |}.

Definition on_playlistManager {A} : M (PlaylistManager.t * World) A -> M (t * World) A :=
  on_member playlistManager set_playlistManager.
Definition on_deviceManager {A} : M (DeviceManager.t * World) A -> M (t * World) A :=
  on_member deviceManager set_deviceManager.
Definition on_engine {A} : M (AudioEngine.t * World) A -> M (t * World) A :=
  on_member engine set_engine.

(** Assignment to [strategyPtr], as for the device. *)
Definition assign_strategyPtr (new : option loc) : M (t * World) unit :=
  fun '(self, w) =>
    match strategyPtr self with
    | Some old =>
        let '(r, w') := Store.delete_strategy old w in (r, (set_strategyPtr new self, w'))
    | None => (Ok tt, (set_strategyPtr new self, w))
    end.

Definition get_strategyPtr : M (t * World) (option loc) :=
  fun '(self, w) => (Ok (strategyPtr self), (self, w)).

(** The default constructor: an empty playlist, no device, no strategy,
    an engine with its three pointers null. *)
Definition construct : M World t :=
  let! l := Store.new_playlist Playlist.empty in
  ret {| playlistManager := {| PlaylistManager.playlist := l |};
         deviceManager := {| DeviceManager.device := None |};
         strategyPtr := None;
         engine := AudioEngine.init |}.

Definition addSongToPlaylist (song : Song) : M (t * World) unit :=
  on_playlistManager (PlaylistManager.addSong song).
Definition removeSongFromPlaylist (index : N) : M (t * World) unit :=
  on_playlistManager (PlaylistManager.removeSong index).

(** The three calls that wire the engine, shared by both [configure]s. *)
Definition wire : M (t * World) unit :=
  let! dev := on_deviceManager DeviceManager.getDevice in
  on_engine (AudioEngine.setDevice dev) ;;
  let! sp := get_strategyPtr in
  on_engine (AudioEngine.setStrategy sp) ;;
  let! pl := on_playlistManager PlaylistManager.getPlaylist in
  on_engine (AudioEngine.loadPlaylist pl).

(** [strategyPtr = createStrategy(pst); if (!strategyPtr) throw ...]. *)
Definition build_strategy (pst : PlayStrategyType) : M (t * World) unit :=
  let! new := liftW (StrategyManager.createStrategy pst) in
  assign_strategyPtr new ;;
  let! sp := get_strategyPtr in
  match sp with
  | None => throw InvalidStrategy
  | Some _ => ret tt
  end.

Definition configure (dt : DeviceType) (pst : PlayStrategyType) : M (t * World) unit :=
  on_deviceManager (DeviceManager.selectDevice dt) ;;
  build_strategy pst ;;
  wire.

(** [dynamic_cast<CustomQueueStrategy*>(strategyPtr.get())] followed by
    [cqs->setQueue(customQueue)]. *)
Definition cast_and_setQueue (customQueue : list N) : M (t * World) unit :=
  fun '(self, w) =>
    match strategyPtr self with
    | None => (Throw InternalInvariantViolation, (self, w))
    | Some p =>
        match strategies w !! p with
        | None => (Undefined, (self, w))
        | Some (PlayStrategy.CustomQueue s) =>
            let '(r, s') := CustomQueueStrategy.setQueue customQueue s in
            (r, (self, set_strategies (<[p := PlayStrategy.CustomQueue s']> (strategies w)) w))
        | Some _ => (Throw InternalInvariantViolation, (self, w))
        end
    end.

Definition configureCustom (dt : DeviceType) (customQueue : list N) : M (t * World) unit :=
  on_deviceManager (DeviceManager.selectDevice dt) ;;
  build_strategy CUSTOM_QUEUE ;;
  cast_and_setQueue customQueue ;;
  wire.

Definition playNext : M (t * World) unit := on_engine AudioEngine.playNext.
Definition playMultiple (count : N) : M (t * World) unit :=
  on_engine (AudioEngine.playMultiple count).
Definition getPlaylist : M (t * World) loc :=
  on_playlistManager PlaylistManager.getPlaylist.
End MusicPlayerFacade.

(** ** Vocabulary of the statements *)

(** [calls m n]: [n] calls of [m] in a row, with what each returned; a call
    that throws ends the run. *)
Fixpoint calls {S A} (m : M S A) (n : nat) : M S (list A) :=
  match n with
  | O => ret []
  | S n' => let! a := m in let! l := calls m n' in ret (a :: l)
  end.

(** The outcome of call number [k], counted from 1, of a run of [m]. *)
Definition call_no {S A} (m : M S A) (k : nat) (s : S) : result A :=
  match calls m (k - 1) s with
  | (Ok _, s') => fst (m s')
  | (Throw e, _) => Throw e
  | (Undefined, _) => Undefined
  end.

(** The states a [CustomQueueStrategy] object can be in: it is constructed,
    and then only its methods touch [queueIndices] and [pos].  A vector
    given to [setQueue] has a [size_t] size. *)
Inductive cq_reachable : CustomQueueStrategy.t -> Prop :=
  | cq_constructed : cq_reachable CustomQueueStrategy.init
  | cq_after_setQueue q st :
      cq_reachable st -> N.of_nat (length q) < 2 ^ SIZE_WIDTH ->
      cq_reachable (snd (CustomQueueStrategy.setQueue q st))
  | cq_after_getNextSong pl st :
      cq_reachable st -> cq_reachable (snd (CustomQueueStrategy.getNextSong pl st))
  | cq_after_reset st :
      cq_reachable st -> cq_reachable (snd (CustomQueueStrategy.reset st)).

(** [plays k s s']: [k] calls of [playNext] in a row return, and lead the
    engine and the store from [s] to [s']. *)
Inductive plays : nat -> AudioEngine.t * World -> AudioEngine.t * World -> Prop :=
  | plays_none s : plays 0 s s
  | plays_more k s s1 s2 :
      AudioEngine.playNext s = (Ok tt, s1) -> plays k s1 s2 -> plays (S k) s s2.

(** A strategy whose cursor is where its constructor puts it. *)
Definition cursor_initial (st : PlayStrategy.t) : Prop :=
  match st with
  | PlayStrategy.Sequential s => SequentialPlayStrategy.index s = 0
  | PlayStrategy.Random _ => True
  | PlayStrategy.CustomQueue s => CustomQueueStrategy.pos s = 0
  end.

(** The allocator has not yet handed out the addresses from [next_loc] on. *)
Definition store_ok (w : World) : Prop :=
  (forall l, is_Some (playlists w !! l) -> (l < next_loc w)%positive)
  /\ (forall l, is_Some (strategies w !! l) -> (l < next_loc w)%positive)
  /\ (forall l, is_Some (devices w !! l) -> (l < next_loc w)%positive).

(** The public methods of the facade; the index tells the two [configure]s
    from the rest. *)
Inductive api_call : bool -> M (MusicPlayerFacade.t * World) unit -> Prop :=
  | call_addSong song : api_call false (MusicPlayerFacade.addSongToPlaylist song)
  | call_removeSong index : api_call false (MusicPlayerFacade.removeSongFromPlaylist index)
  | call_playNext : api_call false MusicPlayerFacade.playNext
  | call_playMultiple count : api_call false (MusicPlayerFacade.playMultiple count)
  | call_configure dt pst : api_call true (MusicPlayerFacade.configure dt pst)
  | call_configureCustom dt q : api_call true (MusicPlayerFacade.configureCustom dt q).

(** [session c s]: the facade and the store are in state [s] after the
    construction of the facade and some calls of its methods, none of them
    [Undefined]; [c] tells whether a [configure] was among them. *)
Inductive session : bool -> MusicPlayerFacade.t * World -> Prop :=
  | session_start w0 f w :
      store_ok w0 -> MusicPlayerFacade.construct w0 = (Ok f, w) -> session false (f, w)
  | session_call c s c' m r s' :
      session c s -> api_call c' m -> m s = (r, s') -> r <> Undefined ->
      session (c || c') s'.

(** What the facade owns is alive. *)
Definition facade_ok (s : MusicPlayerFacade.t * World) : Prop :=
  let '(f, w) := s in
  store_ok w
  /\ is_Some (playlists w !! PlaylistManager.playlist (MusicPlayerFacade.playlistManager f))
  /\ (forall d, DeviceManager.device (MusicPlayerFacade.deviceManager f) = Some d ->
        is_Some (devices w !! d))
  /\ (forall p, MusicPlayerFacade.strategyPtr f = Some p -> is_Some (strategies w !! p)).

(** The enumerators. *)
Definition device_type (dt : DeviceType) : Prop :=
  dt = BLUETOOTH \/ dt = WIRED \/ dt = HEADPHONES.
Definition strategy_type (pst : PlayStrategyType) : Prop :=
  pst = SEQUENTIAL \/ pst = RANDOM \/ pst = CUSTOM_QUEUE.

(** The tracks of [main]. *)
Definition demo_a : Song := {| title := "Lose Yourself"; artist := "Eminem" |}.
Definition demo_b : Song := {| title := "Bohemian Rhapsody"; artist := "Queen" |}.
Definition demo_c : Song := {| title := "Blinding Lights"; artist := "The Weeknd" |}.
Definition demo_d : Song := {| title := "Imagine"; artist := "John Lennon" |}.
Definition demo_playlist : Playlist.t :=
  {| Playlist.songs := [demo_a; demo_b; demo_c; demo_d] |}.

(** The state a call leaves. *)
Definition after {S A} (m : M S A) (s : S) : S := snd (m s).

(** The session of [main] up to its first [configure], and two ways to go
    on from there. *)
Definition demo_rng : Rng.t :=
  {| Rng.tape := fun k => Z.of_nat (7 * k + 3); Rng.calls := 0 |}.
Definition demo_constructed : MusicPlayerFacade.t * World :=
  ({| MusicPlayerFacade.playlistManager := {| PlaylistManager.playlist := 1%positive |};
      MusicPlayerFacade.deviceManager := {| DeviceManager.device := None |};
      MusicPlayerFacade.strategyPtr := None;
      MusicPlayerFacade.engine := AudioEngine.init |},
   after MusicPlayerFacade.construct (boot demo_rng)).
Definition demo_loaded : MusicPlayerFacade.t * World :=
  after (MusicPlayerFacade.addSongToPlaylist demo_a ;;
         MusicPlayerFacade.addSongToPlaylist demo_b ;;
         MusicPlayerFacade.addSongToPlaylist demo_c ;;
         MusicPlayerFacade.addSongToPlaylist demo_d) demo_constructed.
Definition demo_sequential : MusicPlayerFacade.t * World :=
  after (MusicPlayerFacade.configure HEADPHONES SEQUENTIAL) demo_loaded.
Definition demo_custom : MusicPlayerFacade.t * World :=
  after (MusicPlayerFacade.configureCustom WIRED [0; 5]) demo_loaded.

(** The engine of a facade, with the store. *)
Definition engine_of (s : MusicPlayerFacade.t * World) : AudioEngine.t * World :=
  (MusicPlayerFacade.engine (fst s), snd s).

(** Two stores with the same live objects: between them objects were
    updated in place, none made and none destroyed. *)
Definition same_objects (w w' : World) : Prop :=
  (forall l, is_Some (playlists w' !! l) <-> is_Some (playlists w !! l))
  /\ (forall l, is_Some (strategies w' !! l) <-> is_Some (strategies w !! l))
  /\ (forall l, is_Some (devices w' !! l) <-> is_Some (devices w !! l))
  /\ next_loc w' = next_loc w.

(** The objects left when the one a [unique_ptr] owned is destroyed. *)
Definition release {V} (o : option loc) (m : gmap positive V) : gmap positive V :=
  match o with
  | Some l => delete l m
  | None => m
  end.

(** The engine is wired: its three pointers are on live objects, so that
    [playNext] can follow them. *)
Definition wired (s : MusicPlayerFacade.t * World) : Prop :=
  let e := MusicPlayerFacade.engine (fst s) in
  (exists pl, AudioEngine.playlist e = Some pl /\ is_Some (playlists (snd s) !! pl))
  /\ (exists ps, AudioEngine.strategy e = Some ps /\ is_Some (strategies (snd s) !! ps))
  /\ (exists dev, AudioEngine.device e = Some dev /\ is_Some (devices (snd s) !! dev)).

(** The lines a device writes for a track. *)
Definition rendered (d : IAudioOutputDevice.t) (s : Song) : list string :=
  snd (IAudioOutputDevice.playSound d s []).

(** The three pointers of an engine are on live objects. *)
Definition engine_live (e : AudioEngine.t) (w : World) : Prop :=
  exists pl ps dev P st d,
    AudioEngine.playlist e = Some pl /\ AudioEngine.strategy e = Some ps
    /\ AudioEngine.device e = Some dev
    /\ playlists w !! pl = Some P /\ strategies w !! ps = Some st
    /\ devices w !! dev = Some d.

(** The engine is as constructed, or it points to the playlist of the
    facade and to the device and the strategy the facade owns now. *)
Definition engine_synced (s : MusicPlayerFacade.t * World) : Prop :=
  let f := fst s in
  MusicPlayerFacade.engine f = AudioEngine.init
  \/ exists p d,
       MusicPlayerFacade.strategyPtr f = Some p
       /\ DeviceManager.device (MusicPlayerFacade.deviceManager f) = Some d
       /\ MusicPlayerFacade.engine f
          = {| AudioEngine.playlist :=
                 Some (PlaylistManager.playlist (MusicPlayerFacade.playlistManager f));
               AudioEngine.strategy := Some p;
               AudioEngine.device := Some d |}.

(** The tracks of a playlist at the entries of a queue. *)
Definition tracks_at (pl : Playlist.t) (q : list N) (l : list Song) : Prop :=
  Forall2 (fun idx s => Playlist.at_ pl idx = Some s) q l.

(** The outcome of a call without the value it returned. *)
Definition outcome_of {A} (r : result A) : result unit :=
  match r with
  | Ok _ => Ok tt
  | Throw e => Throw e
  | Undefined => Undefined
  end.

(** * Proofs *)

(** ** Arithmetic of [size_t] *)

Lemma wrap_small n : n < 2 ^ SIZE_WIDTH -> wrap n = n.
Proof. intros H. unfold wrap. now apply N.mod_small. Qed.

Lemma wrap_succ_below (i n : nat) :
  (i < n)%nat -> N.of_nat n < 2 ^ SIZE_WIDTH ->
  wrap (N.of_nat i + 1) mod N.of_nat n = N.of_nat (S i mod n).
Proof.
  intros Hi Hn. rewrite wrap_small by lia.
  rewrite Nat2N.inj_mod. f_equal. lia.
Qed.

(** ** Sequential *)

Section Sequential.
Import SequentialPlayStrategy.
Variable pl : Playlist.t.
Hypothesis Hfits : Playlist.fits pl.

Local Abbreviation n := (length (Playlist.songs pl)).

Lemma sequential_step (i : nat) (s : Song) :
  Playlist.songs pl !! i = Some s ->
  getNextSong pl {| index := N.of_nat i |}
  = (Ok s, {| index := N.of_nat (S i mod n) |}).
Proof.
  intros Hs. pose proof (lookup_lt_Some _ _ _ Hs) as Hi.
  unfold getNextSong, Playlist.at_, Playlist.size. cbn [index].
  destruct (N.eqb_spec (N.of_nat n) 0) as [E|_]; [lia|].
  rewrite N.mod_small by lia. rewrite Nat2N.id, Hs.
  rewrite wrap_succ_below; [reflexivity | lia | exact Hfits].
Qed.

Lemma sequential_run (m : nat) : forall i : nat,
  (i < n)%nat ->
  exists l,
    calls (getNextSong pl) m {| index := N.of_nat i |}
    = (Ok l, {| index := N.of_nat ((i + m) mod n) |})
    /\ length l = m
    /\ forall j, (j < m)%nat -> l !! j = Playlist.songs pl !! ((i + j) mod n)%nat.
Proof.
  induction m as [|m IH]; intros i Hi.
  - exists []. rewrite Nat.add_0_r, Nat.mod_small by lia.
    split; [reflexivity|]. split; [reflexivity|]. intros j Hj; lia.
  - destruct (lookup_lt_is_Some_2 (Playlist.songs pl) i Hi) as [s Hs].
    destruct (IH (S i mod n)%nat) as (l & Hrun & Hlen & Hl).
    { apply Nat.mod_upper_bound. lia. }
    exists (s :: l). split; [|split].
    + cbn [calls]. unfold bind at 1. rewrite (sequential_step _ _ Hs).
      unfold bind at 1. rewrite Hrun. unfold ret.
      rewrite Nat.Div0.add_mod_idemp_l. do 3 f_equal. f_equal. lia.
    + cbn. now rewrite Hlen.
    + intros [|j] Hj.
      * rewrite Nat.add_0_r, Nat.mod_small by lia. now rewrite Hs.
      * cbn [lookup list_lookup]. rewrite Hl by lia.
        rewrite Nat.Div0.add_mod_idemp_l. f_equal. f_equal. lia.
Qed.

Lemma sequential_round :
  (0 < n)%nat ->
  calls (getNextSong pl) n init = (Ok (Playlist.songs pl), init).
Proof.
  intros Hn. destruct (sequential_run n 0%nat Hn) as (l & Hrun & Hlen & Hl).
  change {| index := N.of_nat 0 |} with init in Hrun. rewrite Hrun.
  cbn [Nat.add]. rewrite Nat.Div0.mod_same. f_equal. f_equal.
  apply list_eq_same_length with n; [reflexivity | exact Hlen |].
  intros j x y Hj Hx Hy. rewrite Hl in Hx by exact Hj.
  cbn [Nat.add] in Hx. rewrite Nat.mod_small in Hx by exact Hj. congruence.
Qed.

Lemma sequential_call_no (k : nat) :
  (0 < n)%nat -> (1 <= k)%nat ->
  exists s, Playlist.songs pl !! ((k - 1) mod n)%nat = Some s
            /\ call_no (getNextSong pl) k init = Ok s.
Proof.
  intros Hn Hk.
  destruct (sequential_run (k - 1) 0%nat Hn) as (l & Hrun & _ & _).
  destruct (lookup_lt_is_Some_2 (Playlist.songs pl) ((k - 1) mod n)%nat) as [s Hs].
  { apply Nat.mod_upper_bound. lia. }
  exists s. split; [exact Hs|].
  unfold call_no. change {| index := N.of_nat 0 |} with init in Hrun.
  rewrite Hrun. cbn [Nat.add]. now rewrite (sequential_step _ _ Hs).
Qed.
End Sequential.

(** ** CustomQueue *)

Section CustomQueue.
Import CustomQueueStrategy.

(** What the methods maintain: the cursor is inside the queue, or at 0
    when the queue is empty, and the size of the queue is a [size_t]. *)
Lemma cq_invariant st :
  cq_reachable st ->
  (pos st = 0 \/ pos st < queue_size st) /\ queue_size st < 2 ^ SIZE_WIDTH.
Proof.
  induction 1 as [|q st _ _ Hq|pl st _ [IHp IHq]|st _ [_ IHq]].
  - split; [now left | reflexivity].
  - split; [now left | exact Hq].
  - unfold getNextSong.
    destruct (Playlist.size pl =? 0); [now split|].
    destruct (N.eqb_spec (queue_size st) 0) as [|Hne]; [now split|].
    destruct (queueIndices st !! _) as [idx|]; [|now split].
    destruct (Playlist.size pl <=? idx); [now split|].
    destruct (Playlist.at_ pl idx); [|now split].
    cbn [snd pos]. split; [right | exact IHq].
    unfold queue_size at 2. cbn [queueIndices].
    now apply N.mod_upper_bound.
  - split; [now left | exact IHq].
Qed.

Lemma cq_next_pos st :
  cq_reachable st -> wrap (pos st + 1) = pos st + 1.
Proof.
  intros H. destruct (cq_invariant st H) as [[E|Hlt] Hq].
  - rewrite E. reflexivity.
  - apply wrap_small. lia.
Qed.

(** One call at a cursor inside the queue, on an entry inside the
    playlist. *)
Lemma cq_step pl q (p : nat) idx s :
  N.of_nat (length q) < 2 ^ SIZE_WIDTH ->
  q !! p = Some idx -> Playlist.at_ pl idx = Some s ->
  getNextSong pl {| queueIndices := q; pos := N.of_nat p |}
  = (Ok s, {| queueIndices := q; pos := N.of_nat (S p mod length q) |}).
Proof.
  intros Hq Hidx Hs. pose proof (lookup_lt_Some _ _ _ Hidx) as Hp.
  pose proof (lookup_lt_Some _ _ _ Hs) as Hi.
  unfold getNextSong, queue_size. cbn [queueIndices pos].
  destruct (N.eqb_spec (Playlist.size pl) 0) as [E|_].
  { unfold Playlist.size in E. lia. }
  destruct (N.eqb_spec (N.of_nat (length q)) 0) as [E|_]; [lia|].
  rewrite N.mod_small by lia. rewrite Nat2N.id, Hidx.
  destruct (N.leb_spec (Playlist.size pl) idx) as [Hle|_].
  { unfold Playlist.size in Hle. lia. }
  rewrite Hs, wrap_succ_below; [reflexivity | lia | exact Hq].
Qed.

(** A run that stays on entries inside the playlist. *)
Lemma cq_run pl q (k : nat) : forall p : nat,
  N.of_nat (length q) < 2 ^ SIZE_WIDTH ->
  (p + k < length q)%nat ->
  (forall i idx, (p <= i < p + k)%nat -> q !! i = Some idx -> idx < Playlist.size pl) ->
  exists l,
    calls (getNextSong pl) k {| queueIndices := q; pos := N.of_nat p |}
    = (Ok l, {| queueIndices := q; pos := N.of_nat (p + k) |})
    /\ length l = k
    /\ forall j, (j < k)%nat ->
         exists idx, q !! (p + j)%nat = Some idx /\ l !! j = Playlist.at_ pl idx.
Proof.
  induction k as [|k IH]; intros p Hq Hk Hin.
  - exists []. rewrite Nat.add_0_r. split; [reflexivity|].
    split; [reflexivity|]. intros j Hj; lia.
  - destruct (lookup_lt_is_Some_2 q p) as [idx Hidx]; [lia|].
    assert (Hlt : idx < Playlist.size pl) by (apply (Hin p); [lia | exact Hidx]).
    destruct (lookup_lt_is_Some_2 (Playlist.songs pl) (N.to_nat idx)) as [s Hs].
    { unfold Playlist.size in Hlt. lia. }
    destruct (IH (S p) Hq) as (l & Hrun & Hlen & Hl); [lia | |].
    { intros i j Hi. apply Hin. lia. }
    exists (s :: l). split; [|split].
    + cbn [calls]. unfold bind at 1. rewrite (cq_step pl q p idx s Hq Hidx Hs).
      rewrite Nat.mod_small by lia. unfold bind at 1. rewrite Hrun. unfold ret.
      do 3 f_equal. lia.
    + cbn. now rewrite Hlen.
    + intros [|j] Hj.
      * exists idx. rewrite Nat.add_0_r. split; [exact Hidx|].
        unfold Playlist.at_. now rewrite Hs.
      * destruct (Hl j) as (idx' & Hq' & Hl'); [lia|].
        exists idx'. split; [|exact Hl'].
        rewrite <- Hq'. f_equal. lia.
Qed.

(** A call that throws leaves the object as it was. *)
Lemma cq_throw_unchanged pl st e st' :
  getNextSong pl st = (Throw e, st') ->
  st' = st /\ (e = EmptyPlaylist \/ e = EmptyQueue \/ e = IndexOutOfRange).
Proof.
  unfold getNextSong.
  destruct (Playlist.size pl =? 0); [intros [= <- <-]; tauto|].
  destruct (queue_size st =? 0); [intros [= <- <-]; tauto|].
  destruct (queueIndices st !! _) as [idx|]; [|discriminate].
  destruct (Playlist.size pl <=? idx); [intros [= <- <-]; tauto|].
  destruct (Playlist.at_ pl idx); discriminate.
Qed.

(** A call that returns read the entry under the cursor. *)
Lemma cq_ok_inv pl st s st' :
  getNextSong pl st = (Ok s, st') ->
  exists idx,
    queueIndices st !! N.to_nat (pos st mod queue_size st) = Some idx
    /\ idx < Playlist.size pl
    /\ Playlist.at_ pl idx = Some s
    /\ st' = {| queueIndices := queueIndices st;
                pos := wrap (pos st + 1) mod queue_size st |}.
Proof.
  unfold getNextSong.
  destruct (Playlist.size pl =? 0); [discriminate|].
  destruct (queue_size st =? 0); [discriminate|].
  destruct (queueIndices st !! _) as [idx|]; [|discriminate].
  destruct (N.leb_spec (Playlist.size pl) idx) as [|Hlt]; [discriminate|].
  destruct (Playlist.at_ pl idx) as [s0|] eqn:Hs; [|discriminate].
  intros [= <- <-]. exists idx. repeat split; trivial.
Qed.

(** No call is [Undefined]: both subscripts are inside their vectors. *)
Lemma cq_defined pl st :
  fst (getNextSong pl st) <> Undefined.
Proof.
  unfold getNextSong.
  destruct (N.eqb_spec (Playlist.size pl) 0) as [|Hpl]; [discriminate|].
  destruct (N.eqb_spec (queue_size st) 0) as [|Hq]; [discriminate|].
  destruct (lookup_lt_is_Some_2 (queueIndices st)
              (N.to_nat (pos st mod queue_size st))) as [idx ->].
  { pose proof (N.mod_upper_bound (pos st) (queue_size st) Hq) as Hlt.
    unfold queue_size in Hlt |- *. lia. }
  destruct (N.leb_spec (Playlist.size pl) idx) as [|Hlt]; [discriminate|].
  destruct (lookup_lt_is_Some_2 (Playlist.songs pl) (N.to_nat idx)) as [s Hs].
  { unfold Playlist.size in Hlt. lia. }
  unfold Playlist.at_. rewrite Hs. discriminate.
Qed.
End CustomQueue.

(** C1. On a playlist of [n > 0] tracks a freshly constructed Sequential
    strategy returns, in its first [n] calls, the tracks in playlist order;
    call [k] returns track [(k - 1) mod n], so call [n + k] returns what
    call [k] returned; and after [reset()], from any state, the next [n]
    calls return the playlist in order again. *)
Theorem sequential_cyclic_order (pl : Playlist.t) :
  0 < Playlist.size pl -> Playlist.fits pl ->
  let n := length (Playlist.songs pl) in
  let next := SequentialPlayStrategy.getNextSong pl in
  calls next n SequentialPlayStrategy.init
  = (Ok (Playlist.songs pl), SequentialPlayStrategy.init)
  /\ (forall k, (1 <= k)%nat ->
        exists s, Playlist.songs pl !! ((k - 1) mod n)%nat = Some s
                  /\ call_no next k SequentialPlayStrategy.init = Ok s
                  /\ call_no next (n + k) SequentialPlayStrategy.init = Ok s)
  /\ (forall st,
        (SequentialPlayStrategy.reset ;; calls next n) st
        = (Ok (Playlist.songs pl), SequentialPlayStrategy.init)).
Proof.
  intros Hpos Hfits n next.
  assert (Hn : (0 < n)%nat) by (unfold Playlist.size in Hpos; subst n; lia).
  split; [|split].
  - now apply sequential_round.
  - intros k Hk.
    destruct (sequential_call_no pl Hfits k Hn Hk) as (s & Hs & Hcall).
    destruct (sequential_call_no pl Hfits (n + k) Hn) as (s' & Hs' & Hcall'); [lia|].
    exists s. split; [exact Hs|]. split; [exact Hcall|].
    subst next. rewrite Hcall'. f_equal.
    replace (n + k - 1)%nat with ((k - 1) + 1 * n)%nat in Hs' by lia.
    rewrite Nat.Div0.mod_add in Hs'. subst n. congruence.
  - intros st. unfold bind, SequentialPlayStrategy.reset.
    change {| SequentialPlayStrategy.index := 0 |} with SequentialPlayStrategy.init.
    subst next n. now rewrite (sequential_round pl Hfits Hn).
Qed.


Lemma sequential_cyclic_order_witness :
  0 < Playlist.size demo_playlist /\ Playlist.fits demo_playlist
  /\ calls (SequentialPlayStrategy.getNextSong demo_playlist) 4
       SequentialPlayStrategy.init
     = (Ok [demo_a; demo_b; demo_c; demo_d], SequentialPlayStrategy.init).
Proof.
  split; [reflexivity|]. split; [reflexivity|].
  apply (sequential_cyclic_order demo_playlist); reflexivity.
Defined.

(** C2. On a non-empty playlist and a non-empty queue, the entry under
    the cursor is [queue[pos mod len(queue)]]; a call that returns has
    returned the track of the playlist at that entry and has advanced the
    cursor to [(pos + 1) mod len(queue)], and the call does return when the
    entry is inside the playlist.  With queue [1,0,3,2] over four tracks,
    eight calls return the tracks at 1,0,3,2,1,0,3,2. *)
Theorem customQueue_cyclic_order :
  (forall (pl : Playlist.t) (st : CustomQueueStrategy.t),
      cq_reachable st ->
      Playlist.size pl <> 0 -> CustomQueueStrategy.queueIndices st <> [] ->
      let len := CustomQueueStrategy.queue_size st in
      let st_next :=
        {| CustomQueueStrategy.queueIndices := CustomQueueStrategy.queueIndices st;
           CustomQueueStrategy.pos := (CustomQueueStrategy.pos st + 1) mod len |} in
      exists idx,
        CustomQueueStrategy.queueIndices st
          !! N.to_nat (CustomQueueStrategy.pos st mod len) = Some idx
        /\ (forall s st', CustomQueueStrategy.getNextSong pl st = (Ok s, st') ->
              Playlist.at_ pl idx = Some s /\ st' = st_next)
        /\ (idx < Playlist.size pl ->
              exists s, Playlist.at_ pl idx = Some s
                        /\ CustomQueueStrategy.getNextSong pl st = (Ok s, st_next)))
  /\ (forall a b c d st,
        (CustomQueueStrategy.setQueue [1; 0; 3; 2] ;;
         calls (CustomQueueStrategy.getNextSong {| Playlist.songs := [a; b; c; d] |}) 8) st
        = (Ok [b; a; d; c; b; a; d; c],
           {| CustomQueueStrategy.queueIndices := [1; 0; 3; 2];
              CustomQueueStrategy.pos := 0 |})).
Proof.
  split; [|reflexivity].
  intros pl st Hreach Hpl Hq len st_next.
  assert (Hlen : len <> 0).
  { subst len. unfold CustomQueueStrategy.queue_size.
    destruct (CustomQueueStrategy.queueIndices st); [congruence | cbn; lia]. }
  destruct (lookup_lt_is_Some_2 (CustomQueueStrategy.queueIndices st)
              (N.to_nat (CustomQueueStrategy.pos st mod len))) as [idx Hidx].
  { pose proof (N.mod_upper_bound (CustomQueueStrategy.pos st) len Hlen) as Hlt.
    subst len. unfold CustomQueueStrategy.queue_size in Hlt |- *. lia. }
  exists idx. split; [exact Hidx|]. split.
  - intros s st' Hcall.
    destruct (cq_ok_inv pl st s st' Hcall) as (idx' & Hidx' & _ & Hs & ->).
    fold len in Hidx'. rewrite Hidx in Hidx'. injection Hidx' as <-.
    split; [exact Hs|]. subst st_next len. now rewrite (cq_next_pos st Hreach).
  - intros Hin.
    destruct (lookup_lt_is_Some_2 (Playlist.songs pl) (N.to_nat idx)) as [s Hs].
    { unfold Playlist.size in Hin. lia. }
    exists s. split; [exact Hs|].
    unfold CustomQueueStrategy.getNextSong. fold len.
    destruct (N.eqb_spec (Playlist.size pl) 0) as [|_]; [contradiction|].
    destruct (N.eqb_spec len 0) as [|_]; [contradiction|].
    rewrite Hidx. destruct (N.leb_spec (Playlist.size pl) idx) as [|_]; [lia|].
    unfold Playlist.at_ at 1. rewrite Hs. subst st_next.
    now rewrite (cq_next_pos st Hreach).
Qed.

Lemma customQueue_cyclic_order_witness :
  let st := snd (CustomQueueStrategy.setQueue [1; 0; 3; 2] CustomQueueStrategy.init) in
  cq_reachable st /\ Playlist.size demo_playlist <> 0
  /\ CustomQueueStrategy.queueIndices st <> []
  /\ exists idx,
       CustomQueueStrategy.queueIndices st !! 0%nat = Some idx
       /\ (idx < Playlist.size demo_playlist ->
             exists s, Playlist.at_ demo_playlist idx = Some s
                       /\ CustomQueueStrategy.getNextSong demo_playlist st
                          = (Ok s, {| CustomQueueStrategy.queueIndices := [1; 0; 3; 2];
                                      CustomQueueStrategy.pos := 1 |})).
Proof.
  intros st.
  assert (Hreach : cq_reachable st).
  { apply cq_after_setQueue; [apply cq_constructed | reflexivity]. }
  split; [exact Hreach|]. split; [discriminate|]. split; [discriminate|].
  destruct (proj1 customQueue_cyclic_order demo_playlist st Hreach)
    as (idx & Hidx & _ & Hok); [discriminate | discriminate |].
  exists idx. split; [exact Hidx | exact Hok].
Defined.

(** C3. [getNextSong] of the CustomQueue strategy throws EmptyPlaylist on
    an empty playlist, whatever the queue; on a non-empty playlist it
    throws EmptyQueue when the queue is empty, as it is in the object the
    strategy factory has just made; on a non-empty playlist and queue it
    throws IndexOutOfRange when the entry under the cursor is not below the
    size of the playlist.  [setQueue] accepts any queue: with the entries
    before position [k] inside the playlist and entry [k] outside, the
    first [k] calls return and call [k + 1] throws IndexOutOfRange. *)
Theorem customQueue_errors (pl : Playlist.t) (st : CustomQueueStrategy.t) :
  (Playlist.size pl = 0 ->
     CustomQueueStrategy.getNextSong pl st = (Throw EmptyPlaylist, st))
  /\ (Playlist.size pl <> 0 -> CustomQueueStrategy.queueIndices st = [] ->
        CustomQueueStrategy.getNextSong pl st = (Throw EmptyQueue, st))
  /\ (StrategyManager.fresh CUSTOM_QUEUE
      = Some (PlayStrategy.CustomQueue CustomQueueStrategy.init)
      /\ (Playlist.size pl <> 0 ->
            CustomQueueStrategy.getNextSong pl CustomQueueStrategy.init
            = (Throw EmptyQueue, CustomQueueStrategy.init)))
  /\ (forall idx,
        Playlist.size pl <> 0 -> CustomQueueStrategy.queueIndices st <> [] ->
        CustomQueueStrategy.queueIndices st
          !! N.to_nat (CustomQueueStrategy.pos st mod CustomQueueStrategy.queue_size st)
        = Some idx ->
        Playlist.size pl <= idx ->
        CustomQueueStrategy.getNextSong pl st = (Throw IndexOutOfRange, st))
  /\ (forall (q : list N) (k : nat) (bad : N),
        N.of_nat (length q) < 2 ^ SIZE_WIDTH ->
        Playlist.size pl <> 0 ->
        (forall i idx, (i < k)%nat -> q !! i = Some idx -> idx < Playlist.size pl) ->
        q !! k = Some bad -> Playlist.size pl <= bad ->
        let at_k := {| CustomQueueStrategy.queueIndices := q;
                       CustomQueueStrategy.pos := N.of_nat k |} in
        exists l,
          (CustomQueueStrategy.setQueue q ;;
           calls (CustomQueueStrategy.getNextSong pl) k) st = (Ok l, at_k)
          /\ length l = k
          /\ CustomQueueStrategy.getNextSong pl at_k = (Throw IndexOutOfRange, at_k)).
Proof.
  split; [|split; [|split; [|split]]].
  - intros E. unfold CustomQueueStrategy.getNextSong. now rewrite E.
  - intros Hpl Hq. unfold CustomQueueStrategy.getNextSong, CustomQueueStrategy.queue_size.
    destruct (N.eqb_spec (Playlist.size pl) 0) as [|_]; [contradiction|].
    now rewrite Hq.
  - split; [reflexivity|]. intros Hpl. unfold CustomQueueStrategy.getNextSong.
    destruct (N.eqb_spec (Playlist.size pl) 0) as [|_]; [contradiction|]. reflexivity.
  - intros idx Hpl Hq Hidx Hbad. unfold CustomQueueStrategy.getNextSong.
    destruct (N.eqb_spec (Playlist.size pl) 0) as [|_]; [contradiction|].
    destruct (N.eqb_spec (CustomQueueStrategy.queue_size st) 0) as [E|_].
    { unfold CustomQueueStrategy.queue_size in E.
      destruct (CustomQueueStrategy.queueIndices st); [congruence | cbn in E; lia]. }
    rewrite Hidx. destruct (N.leb_spec (Playlist.size pl) idx) as [_|]; [reflexivity | lia].
  - intros q k bad Hq Hpl Hin Hk Hbad at_k.
    pose proof (lookup_lt_Some _ _ _ Hk) as Hlt.
    destruct (cq_run pl q k 0%nat Hq) as (l & Hrun & Hlen & _); [lia | |].
    { intros i idx Hi. apply Hin. lia. }
    exists l. split; [|split; [exact Hlen|]].
    + unfold bind, CustomQueueStrategy.setQueue.
      change (N.of_nat 0) with 0 in Hrun. now rewrite Hrun.
    + subst at_k. unfold CustomQueueStrategy.getNextSong, CustomQueueStrategy.queue_size.
      cbn [CustomQueueStrategy.queueIndices CustomQueueStrategy.pos].
      destruct (N.eqb_spec (Playlist.size pl) 0) as [|_]; [contradiction|].
      destruct (N.eqb_spec (N.of_nat (length q)) 0) as [|_]; [lia|].
      rewrite N.mod_small by lia. rewrite Nat2N.id, Hk.
      destruct (N.leb_spec (Playlist.size pl) bad) as [_|]; [reflexivity | lia].
Qed.

Lemma customQueue_errors_witness :
  let at_1 := {| CustomQueueStrategy.queueIndices := [0; 5];
                 CustomQueueStrategy.pos := 1 |} in
  exists l,
    (CustomQueueStrategy.setQueue [0; 5] ;;
     calls (CustomQueueStrategy.getNextSong demo_playlist) 1) CustomQueueStrategy.init
    = (Ok l, at_1)
    /\ length l = 1%nat
    /\ CustomQueueStrategy.getNextSong demo_playlist at_1 = (Throw IndexOutOfRange, at_1).
Proof.
  apply (customQueue_errors demo_playlist CustomQueueStrategy.init) with (bad := 5).
  - reflexivity.
  - discriminate.
  - intros [|i] idx Hi; [intros [= <-]; reflexivity | lia].
  - reflexivity.
  - discriminate.
Defined.

(** C10. A call of CustomQueue's [getNextSong] that throws, throws one of
    EmptyPlaylist, EmptyQueue and IndexOutOfRange and leaves the cursor and
    the queue as they were; the next call that returns, on whatever
    playlist, returns the track at the entry that was under the cursor when
    the call threw. *)
Theorem customQueue_failure_keeps_cursor
    (pl : Playlist.t) (st st' : CustomQueueStrategy.t) (e : runtime_error) :
  CustomQueueStrategy.getNextSong pl st = (Throw e, st') ->
  (e = EmptyPlaylist \/ e = EmptyQueue \/ e = IndexOutOfRange)
  /\ CustomQueueStrategy.pos st' = CustomQueueStrategy.pos st
  /\ CustomQueueStrategy.queueIndices st' = CustomQueueStrategy.queueIndices st
  /\ (forall pl' s st'',
        CustomQueueStrategy.getNextSong pl' st' = (Ok s, st'') ->
        exists idx,
          CustomQueueStrategy.queueIndices st
            !! N.to_nat (CustomQueueStrategy.pos st mod CustomQueueStrategy.queue_size st)
          = Some idx
          /\ Playlist.at_ pl' idx = Some s).
Proof.
  intros Hthrow. destruct (cq_throw_unchanged pl st e st' Hthrow) as [-> He].
  split; [exact He|]. split; [reflexivity|]. split; [reflexivity|].
  intros pl' s st'' Hok.
  destruct (cq_ok_inv pl' st s st'' Hok) as (idx & Hidx & _ & Hs & _).
  exists idx. split; assumption.
Qed.

Lemma customQueue_failure_keeps_cursor_witness :
  let st := {| CustomQueueStrategy.queueIndices := [3; 0];
               CustomQueueStrategy.pos := 0 |} in
  let short := {| Playlist.songs := [demo_a; demo_b] |} in
  CustomQueueStrategy.getNextSong short st = (Throw IndexOutOfRange, st)
  /\ CustomQueueStrategy.pos st = 0
  /\ forall s st'',
       CustomQueueStrategy.getNextSong demo_playlist st = (Ok s, st'') ->
       exists idx, [3; 0] !! 0%nat = Some idx /\ Playlist.at_ demo_playlist idx = Some s.
Proof.
  intros st short.
  assert (H : CustomQueueStrategy.getNextSong short st = (Throw IndexOutOfRange, st))
    by reflexivity.
  split; [exact H|]. split; [reflexivity|].
  intros s st'' Hok.
  exact (proj2 (proj2 (proj2
    (customQueue_failure_keeps_cursor short st st IndexOutOfRange H)))
    demo_playlist s st'' Hok).
Defined.

(** ** Random *)

Lemma size_t_of_int_mod_below (r : Z) (n : N) :
  n <> 0 -> size_t_of_int r mod n < n.
Proof. intros Hn. now apply N.mod_upper_bound. Qed.

(** C9. On a playlist of [N > 0] tracks, whatever value [rand()] returns,
    the Random strategy reads an index below [N] and returns the track
    there, a member of the playlist; on an empty playlist it throws
    EmptyPlaylist without reading the generator; and [reset()] leaves the
    object as it is. *)
Theorem random_returns_member (pl : Playlist.t) (g : Rng.t) :
  (0 < Playlist.size pl ->
     let idx := size_t_of_int (Rng.tape g (Rng.calls g)) mod Playlist.size pl in
     exists s,
       idx < Playlist.size pl
       /\ Playlist.at_ pl idx = Some s
       /\ s ∈ Playlist.songs pl
       /\ RandomPlayStrategy.getNextSong pl g
          = (Ok s, {| Rng.tape := Rng.tape g; Rng.calls := S (Rng.calls g) |}))
  /\ (Playlist.size pl = 0 ->
        RandomPlayStrategy.getNextSong pl g = (Throw EmptyPlaylist, g))
  /\ (forall st, RandomPlayStrategy.reset st = (Ok tt, st))
  /\ (forall st, PlayStrategy.reset (PlayStrategy.Random st)
                 = (Ok tt, PlayStrategy.Random st)).
Proof.
  split; [|split; [|split]].
  - intros Hpos idx.
    assert (Hlt : idx < Playlist.size pl) by (apply size_t_of_int_mod_below; lia).
    destruct (lookup_lt_is_Some_2 (Playlist.songs pl) (N.to_nat idx)) as [s Hs].
    { unfold Playlist.size in Hlt. lia. }
    exists s. split; [exact Hlt|]. split; [exact Hs|].
    split; [exact (list_elem_of_lookup_2 _ _ _ Hs)|].
    unfold RandomPlayStrategy.getNextSong.
    destruct (N.eqb_spec (Playlist.size pl) 0) as [E|_]; [lia|].
    unfold bind, Rng.rand. fold idx. unfold Playlist.at_ in Hs |- *.
    now rewrite Hs.
  - intros E. unfold RandomPlayStrategy.getNextSong. now rewrite E.
  - reflexivity.
  - reflexivity.
Qed.

Lemma random_returns_member_witness :
  let g := {| Rng.tape := fun k => (-7 + Z.of_nat k)%Z; Rng.calls := 0 |} in
  0 < Playlist.size demo_playlist
  /\ exists s, s ∈ Playlist.songs demo_playlist
               /\ fst (RandomPlayStrategy.getNextSong demo_playlist g) = Ok s.
Proof.
  intros g. split; [reflexivity|].
  destruct (proj1 (random_returns_member demo_playlist g)) as (s & _ & _ & Hin & Hcall);
    [reflexivity|].
  exists s. split; [exact Hin | now rewrite Hcall].
Defined.

(** ** Playlist *)

Lemma set_playlists_same (w : World) (l : loc) (p : Playlist.t) :
  playlists w !! l = Some p -> set_playlists (<[l := p]> (playlists w)) w = w.
Proof. intros H. rewrite (insert_id _ _ _ H). now destruct w. Qed.

(** C5. [removeSong(index)] with [index >= size()] returns the playlist
    unchanged, and through the facade it returns normally with the state
    unchanged; with [index < size()] the result is one track shorter, the
    tracks before [index] keep their positions and every later track moves
    down by one, so the positions in use are again [0 .. len - 1]. *)
Theorem removeSong_lenient (pl : Playlist.t) (index : N) :
  (Playlist.size pl <= index ->
     Playlist.removeSong index pl = pl
     /\ forall f w,
          playlists w !! PlaylistManager.playlist (MusicPlayerFacade.playlistManager f)
          = Some pl ->
          MusicPlayerFacade.removeSongFromPlaylist index (f, w) = (Ok tt, (f, w)))
  /\ (index < Playlist.size pl ->
        Playlist.size (Playlist.removeSong index pl) = Playlist.size pl - 1
        /\ (forall j, j < index ->
              Playlist.at_ (Playlist.removeSong index pl) j = Playlist.at_ pl j)
        /\ (forall j, index <= j ->
              Playlist.at_ (Playlist.removeSong index pl) j = Playlist.at_ pl (j + 1))
        /\ (forall j, is_Some (Playlist.at_ (Playlist.removeSong index pl) j)
                      <-> j < Playlist.size pl - 1)).
Proof.
  split.
  - intros Hge.
    assert (E : Playlist.removeSong index pl = pl).
    { unfold Playlist.removeSong.
      destruct (N.ltb_spec index (Playlist.size pl)); [lia | reflexivity]. }
    split; [exact E|]. intros [pm dm sp en] w Hlive. cbn in Hlive.
    unfold MusicPlayerFacade.removeSongFromPlaylist, MusicPlayerFacade.on_playlistManager,
      on_member, PlaylistManager.removeSong, PlaylistManager.with_playlist.
    cbn [MusicPlayerFacade.playlistManager]. destruct pm as [l]. cbn in Hlive |- *.
    rewrite Hlive, E, (set_playlists_same w l pl Hlive). reflexivity.
  - intros Hlt.
    assert (E : Playlist.removeSong index pl
                = {| Playlist.songs := delete (N.to_nat index) (Playlist.songs pl) |}).
    { unfold Playlist.removeSong.
      destruct (N.ltb_spec index (Playlist.size pl)); [reflexivity | lia]. }
    rewrite E. unfold Playlist.size, Playlist.at_ in *. cbn [Playlist.songs].
    assert (Hlen : length (delete (N.to_nat index) (Playlist.songs pl))
                   = (length (Playlist.songs pl) - 1)%nat).
    { rewrite length_delete; [reflexivity|]. apply lookup_lt_is_Some_2. lia. }
    split; [rewrite Hlen; lia|]. split; [|split].
    + intros j Hj. apply list_lookup_delete_lt. lia.
    + intros j Hj. rewrite list_lookup_delete_ge by lia. f_equal. lia.
    + intros j. rewrite lookup_lt_is_Some, Hlen. lia.
Qed.

Lemma removeSong_lenient_witness :
  Playlist.size demo_playlist <= 4
  /\ Playlist.removeSong 4 demo_playlist = demo_playlist
  /\ 1 < Playlist.size demo_playlist
  /\ Playlist.size (Playlist.removeSong 1 demo_playlist) = Playlist.size demo_playlist - 1.
Proof.
  assert (Hge : Playlist.size demo_playlist <= 4) by discriminate.
  assert (Hlt : 1 < Playlist.size demo_playlist) by reflexivity.
  split; [exact Hge|].
  split; [exact (proj1 (proj1 (removeSong_lenient demo_playlist 4) Hge))|].
  split; [exact Hlt|].
  exact (proj1 (proj2 (removeSong_lenient demo_playlist 1) Hlt)).
Defined.

(** ** AudioEngine *)

Lemma playSound_one_line (d : IAudioOutputDevice.t) (s : Song) (out : list string) :
  exists line, IAudioOutputDevice.playSound d s out = (Ok tt, (out ++ [line])%list).
Proof. destruct d; eexists; reflexivity. Qed.

Lemma playNext_unbound (e : AudioEngine.t) (w : World) :
  AudioEngine.playlist e = None \/ AudioEngine.strategy e = None
  \/ AudioEngine.device e = None ->
  AudioEngine.playNext (e, w) = (Throw NotConfigured, (e, w)).
Proof.
  unfold AudioEngine.playNext.
  intros [E|[E|E]]; rewrite E;
    repeat match goal with |- context [match ?o with Some _ => _ | None => _ end] =>
      destruct o end; reflexivity.
Qed.

Lemma playMultiple_loop_unbound (n : nat) (e : AudioEngine.t) (w : World) :
  AudioEngine.playlist e = None \/ AudioEngine.strategy e = None
  \/ AudioEngine.device e = None ->
  snd (AudioEngine.playMultiple_loop n (e, w)) = (e, w)
  /\ fst (AudioEngine.playMultiple_loop n (e, w)) <> Undefined.
Proof.
  intros H. destruct n as [|n]; [now split|].
  cbn [AudioEngine.playMultiple_loop]. unfold bind.
  rewrite (playNext_unbound e w H). now split.
Qed.

(** Before the first [configure] the engine is as constructed, with its
    three pointers null. *)
Lemma unconfigured_engine c s :
  session c s -> c = false -> MusicPlayerFacade.engine (fst s) = AudioEngine.init.
Proof.
  induction 1 as [w0 f w _ Hc|c s c' m r s' _ IH Hcall Hm _]; intros Hc'.
  - unfold MusicPlayerFacade.construct, bind, Store.new_playlist, ret in Hc.
    now injection Hc as <- <-.
  - apply orb_false_iff in Hc' as [-> ->]. specialize (IH eq_refl).
    destruct s as [[pm dm sp en] w]. cbn in IH. subst en.
    inversion Hcall as [song E|index E|E|count E| |]; subst m.
    + unfold MusicPlayerFacade.addSongToPlaylist, MusicPlayerFacade.on_playlistManager,
        on_member, PlaylistManager.addSong, PlaylistManager.with_playlist in Hm.
      cbn in Hm. destruct (playlists w !! _); now injection Hm as <- <-.
    + unfold MusicPlayerFacade.removeSongFromPlaylist, MusicPlayerFacade.on_playlistManager,
        on_member, PlaylistManager.removeSong, PlaylistManager.with_playlist in Hm.
      cbn in Hm. destruct (playlists w !! _); now injection Hm as <- <-.
    + unfold MusicPlayerFacade.playNext, MusicPlayerFacade.on_engine, on_member in Hm.
      cbn in Hm. now injection Hm as <- <-.
    + unfold MusicPlayerFacade.playMultiple, MusicPlayerFacade.on_engine, on_member,
        AudioEngine.playMultiple in Hm.
      cbn [MusicPlayerFacade.engine] in Hm.
      destruct (playMultiple_loop_unbound (N.to_nat count) AudioEngine.init w) as [Hs _];
        [now left|].
      destruct (AudioEngine.playMultiple_loop _ _) as [r0 [e0 w0]].
      cbn in Hs. injection Hs as -> ->. now injection Hm as <- <-.
Qed.

(** C6. [playNext()] throws NotConfigured when one of the three pointers
    of the engine is null, and so does every [playNext] of a facade on
    which no [configure] has been called yet; with the three pointers on
    live objects it makes one [getNextSong] call on the strategy: what that
    call throws is thrown on with nothing sent to the device, and the track
    it returns is handed to [playSound] of the device, which writes one
    line. *)
Theorem playNext_contract (e : AudioEngine.t) (w : World) :
  (AudioEngine.playlist e = None \/ AudioEngine.strategy e = None
   \/ AudioEngine.device e = None ->
     AudioEngine.playNext (e, w) = (Throw NotConfigured, (e, w)))
  /\ (forall s, session false s ->
        MusicPlayerFacade.playNext s = (Throw NotConfigured, s))
  /\ (forall pl ps dev P st d r st' g',
        AudioEngine.playlist e = Some pl -> AudioEngine.strategy e = Some ps ->
        AudioEngine.device e = Some dev ->
        playlists w !! pl = Some P -> strategies w !! ps = Some st ->
        devices w !! dev = Some d ->
        PlayStrategy.getNextSong P (st, rng w) = (r, (st', g')) ->
        let w1 := set_rng g' (set_strategies (<[ps := st']> (strategies w)) w) in
        match r with
        | Ok s =>
            exists line,
              IAudioOutputDevice.playSound d s (cout w) = (Ok tt, (cout w ++ [line])%list)
              /\ AudioEngine.playNext (e, w)
                 = (Ok tt, (e, set_cout (cout w ++ [line])%list w1))
        | Throw err => AudioEngine.playNext (e, w) = (Throw err, (e, w1))
        | Undefined => AudioEngine.playNext (e, w) = (Undefined, (e, w1))
        end).
Proof.
  split; [apply playNext_unbound|]. split.
  - intros [f w'] Hs. pose proof (unconfigured_engine _ _ Hs eq_refl) as E.
    destruct f as [pm dm sp en]. cbn in E. subst en. reflexivity.
  - intros pl ps dev P st d r st' g' Hpl Hps Hdev HP Hst Hd Hnext w1.
    unfold AudioEngine.playNext. rewrite Hpl, Hps, Hdev.
    unfold bind, liftW, Store.getNextSong. rewrite Hst, HP, Hnext. fold w1.
    destruct r as [s|err|]; [|reflexivity|reflexivity].
    destruct (playSound_one_line d s (cout w)) as [line Hline].
    exists line. split; [exact Hline|].
    unfold Store.playSound. replace (devices w1) with (devices w) by reflexivity.
    rewrite Hd. replace (cout w1) with (cout w) by reflexivity. now rewrite Hline.
Qed.

Lemma bind_Ok {S A B} (m : M S A) (k : A -> M S B) s a s' :
  m s = (Ok a, s') -> bind m k s = k a s'.
Proof. intros H. unfold bind. now rewrite H. Qed.

Lemma bind_Throw {S A B} (m : M S A) (k : A -> M S B) s e s' :
  m s = (Throw e, s') -> bind m k s = (Throw e, s').
Proof. intros H. unfold bind. now rewrite H. Qed.

Lemma bind_Undefined {S A B} (m : M S A) (k : A -> M S B) s s' :
  m s = (Undefined, s') -> bind m k s = (Undefined, s').
Proof. intros H. unfold bind. now rewrite H. Qed.

Lemma playMultiple_loop_all k s s' :
  plays k s s' -> AudioEngine.playMultiple_loop k s = (Ok tt, s').
Proof.
  induction 1 as [s|k s s1 s2 Hstep _ IH]; [reflexivity|].
  cbn [AudioEngine.playMultiple_loop]. now rewrite (bind_Ok _ _ _ _ _ Hstep).
Qed.

Lemma playMultiple_loop_stops k s s' :
  plays k s s' ->
  forall r s'' m, AudioEngine.playNext s' = (r, s'') -> r <> Ok tt ->
  AudioEngine.playMultiple_loop (k + S m) s = (r, s'').
Proof.
  induction 1 as [s|k s s1 s2 Hstep _ IH]; intros r s'' m Hfail Hr.
  - cbn [Nat.add AudioEngine.playMultiple_loop].
    destruct r as [[]|e|]; [congruence| |].
    + now apply bind_Throw.
    + now apply bind_Undefined.
  - cbn [Nat.add AudioEngine.playMultiple_loop].
    rewrite (bind_Ok _ _ _ _ _ Hstep). now apply IH.
Qed.

Lemma playMultiple_loop_total n : forall s,
  (exists s', plays n s s')
  \/ (exists k s' r s'',
        (k < n)%nat /\ plays k s s' /\ AudioEngine.playNext s' = (r, s'') /\ r <> Ok tt).
Proof.
  induction n as [|n IH]; intros s.
  - left. exists s. constructor.
  - destruct (AudioEngine.playNext s) as [r s1] eqn:Hstep.
    destruct r as [[]|e|].
    + destruct (IH s1) as [(s' & Hs')|(k & s' & r & s'' & Hk & Hplays & Hfail & Hr)].
      * left. exists s'. now apply plays_more with s1.
      * right. exists (S k), s', r, s''. split; [lia|].
        split; [now apply plays_more with s1|]. now split.
    + right. exists 0%nat, s, (Throw e), s1.
      split; [lia|]. split; [constructor|]. now split.
    + right. exists 0%nat, s, Undefined, s1.
      split; [lia|]. split; [constructor|]. now split.
Qed.

(** C4. [playMultiple(count)] is [count] calls of [playNext()] in a row:
    when they all return it returns in the state they lead to; when call
    [k + 1 <= count] is the first to throw, it throws that same error in
    the state that call left, so none of the later calls is made; and one
    of the two is the case unless a call is [Undefined]. *)
Theorem playMultiple_stops_at_first_failure
    (count : N) (s : AudioEngine.t * World) :
  (forall s', plays (N.to_nat count) s s' ->
     AudioEngine.playMultiple count s = (Ok tt, s'))
  /\ (forall k s' e s'',
        (k < N.to_nat count)%nat -> plays k s s' ->
        AudioEngine.playNext s' = (Throw e, s'') ->
        AudioEngine.playMultiple count s = (Throw e, s''))
  /\ ((exists s', plays (N.to_nat count) s s')
      \/ (exists k s' r s'',
            (k < N.to_nat count)%nat /\ plays k s s'
            /\ AudioEngine.playNext s' = (r, s'') /\ r <> Ok tt
            /\ AudioEngine.playMultiple count s = (r, s''))).
Proof.
  unfold AudioEngine.playMultiple. split; [|split].
  - intros s'. apply playMultiple_loop_all.
  - intros k s' e s'' Hk Hplays Hfail.
    replace (N.to_nat count) with (k + S (N.to_nat count - S k))%nat by lia.
    now apply (playMultiple_loop_stops k s s' Hplays).
  - destruct (playMultiple_loop_total (N.to_nat count) s)
      as [H|(k & s' & r & s'' & Hk & Hplays & Hfail & Hr)]; [now left|].
    right. exists k, s', r, s''. repeat (split; [assumption|]).
    replace (N.to_nat count) with (k + S (N.to_nat count - S k))%nat by lia.
    now apply (playMultiple_loop_stops k s s' Hplays).
Qed.

Lemma playMultiple_stops_at_first_failure_witness :
  let s := engine_of demo_custom in
  let s1 := after AudioEngine.playNext s in
  (1 < N.to_nat 3)%nat /\ plays 1 s s1
  /\ AudioEngine.playNext s1 = (Throw IndexOutOfRange, s1)
  /\ AudioEngine.playMultiple 3 s = (Throw IndexOutOfRange, s1).
Proof.
  intros s s1.
  assert (Hlt : (1 < N.to_nat 3)%nat) by (vm_compute; lia).
  assert (Hplays : plays 1 s s1).
  { apply plays_more with s1; [vm_compute; reflexivity | constructor]. }
  assert (Hfail : AudioEngine.playNext s1 = (Throw IndexOutOfRange, s1))
    by (vm_compute; reflexivity).
  split; [exact Hlt|]. split; [exact Hplays|]. split; [exact Hfail|].
  exact (proj1 (proj2 (playMultiple_stops_at_first_failure 3 s))
           1%nat s1 IndexOutOfRange s1 Hlt Hplays Hfail).
Defined.

Lemma playNext_contract_witness :
  let e := MusicPlayerFacade.engine (fst demo_sequential) in
  let w := snd demo_sequential in
  AudioEngine.playlist e = Some 1%positive
  /\ playlists w !! 1%positive = Some demo_playlist
  /\ exists line,
       IAudioOutputDevice.playSound IAudioOutputDevice.HeadphonesAdapter demo_a (cout w)
       = (Ok tt, (cout w ++ [line])%list)
       /\ fst (AudioEngine.playNext (e, w)) = Ok tt
       /\ cout (snd (snd (AudioEngine.playNext (e, w)))) = (cout w ++ [line])%list.
Proof.
  intros e w.
  assert (Hpl : AudioEngine.playlist e = Some 1%positive) by reflexivity.
  assert (HP : playlists w !! 1%positive = Some demo_playlist) by reflexivity.
  split; [exact Hpl|]. split; [exact HP|].
  destruct (proj2 (proj2 (playNext_contract e w))
              1%positive 3%positive 2%positive demo_playlist
              (PlayStrategy.Sequential SequentialPlayStrategy.init)
              IAudioOutputDevice.HeadphonesAdapter
              (Ok demo_a)
              (PlayStrategy.Sequential {| SequentialPlayStrategy.index := 1 |})
              (rng w)
              Hpl eq_refl eq_refl HP eq_refl eq_refl eq_refl)
    as (line & Hline & Hplay).
  exists line. split; [exact Hline|]. rewrite Hplay. split; reflexivity.
Defined.

(** ** The facade and what it owns *)

Lemma is_Some_insert_live {V} (m : gmap positive V) (l k : loc) (x : V) :
  is_Some (m !! l) -> is_Some (<[l := x]> m !! k) <-> is_Some (m !! k).
Proof.
  intros Hl. destruct (decide (l = k)) as [->|Hne].
  - rewrite lookup_insert_eq. split; [intros _; exact Hl | intros _; eauto].
  - now rewrite lookup_insert_ne.
Qed.

Lemma lookup_release_eq {V} (m : gmap positive V) (l : loc) :
  release (Some l) m !! l = None.
Proof. apply lookup_delete_eq. Qed.

Lemma lookup_release_ne {V} (m : gmap positive V) (o : option loc) (l : loc) :
  o <> Some l -> release o m !! l = m !! l.
Proof.
  destruct o as [k|]; intros Hne; [|reflexivity].
  apply lookup_delete_ne. congruence.
Qed.

Lemma is_Some_release {V} (m : gmap positive V) (o : option loc) (l : loc) :
  is_Some (release o m !! l) -> is_Some (m !! l).
Proof.
  destruct o as [k|]; [|trivial]. cbn [release].
  destruct (decide (k = l)) as [->|Hne].
  - rewrite lookup_delete_eq. intros [x Hx]. discriminate.
  - now rewrite lookup_delete_ne.
Qed.

Lemma same_objects_refl w : same_objects w w.
Proof. repeat split; trivial. Qed.

Lemma same_objects_trans w1 w2 w3 :
  same_objects w1 w2 -> same_objects w2 w3 -> same_objects w1 w3.
Proof.
  intros (Hp & Hs & Hd & Hn) (Hp' & Hs' & Hd' & Hn').
  split; [|split; [|split]].
  - intros l. now rewrite Hp', Hp.
  - intros l. now rewrite Hs', Hs.
  - intros l. now rewrite Hd', Hd.
  - congruence.
Qed.

Lemma facade_ok_same f f' w w' :
  facade_ok (f, w) -> same_objects w w' ->
  MusicPlayerFacade.playlistManager f' = MusicPlayerFacade.playlistManager f ->
  MusicPlayerFacade.deviceManager f' = MusicPlayerFacade.deviceManager f ->
  MusicPlayerFacade.strategyPtr f' = MusicPlayerFacade.strategyPtr f ->
  facade_ok (f', w').
Proof.
  intros ((Hp & Hs & Hd) & Hpl & Hdev & Hsp) (Sp & Ss & Sd & Sn) Epm Edm Esp.
  unfold facade_ok, store_ok. rewrite Epm, Edm, Esp, Sn.
  split; [split; [|split]|split; [|split]].
  - intros l Hl. apply Hp, Sp, Hl.
  - intros l Hl. apply Hs, Ss, Hl.
  - intros l Hl. apply Hd, Sd, Hl.
  - apply Sp, Hpl.
  - intros d Hd'. apply Sd, Hdev, Hd'.
  - intros p Hp'. apply Ss, Hsp, Hp'.
Qed.

Lemma getNextSong_same ps pl w : same_objects w (snd (Store.getNextSong ps pl w)).
Proof.
  unfold Store.getNextSong.
  destruct (strategies w !! ps) as [st|] eqn:Hst; [|apply same_objects_refl].
  destruct (playlists w !! pl) as [P|]; [|apply same_objects_refl].
  destruct (PlayStrategy.getNextSong P (st, rng w)) as [r [st' g']].
  split; [|split; [|split]]; try reflexivity.
  intros l. apply is_Some_insert_live. rewrite Hst. eauto.
Qed.

Lemma playSound_same dev s w : same_objects w (snd (Store.playSound dev s w)).
Proof.
  unfold Store.playSound.
  destruct (devices w !! dev) as [d|]; [|apply same_objects_refl].
  destruct (IAudioOutputDevice.playSound d s (cout w)) as [r out].
  repeat split; intros; trivial.
Qed.

Lemma playNext_same e w :
  fst (snd (AudioEngine.playNext (e, w))) = e
  /\ same_objects w (snd (snd (AudioEngine.playNext (e, w)))).
Proof.
  unfold AudioEngine.playNext.
  destruct (AudioEngine.playlist e) as [pl|]; [|split; [reflexivity|apply same_objects_refl]].
  destruct (AudioEngine.strategy e) as [ps|]; [|split; [reflexivity|apply same_objects_refl]].
  destruct (AudioEngine.device e) as [dev|]; [|split; [reflexivity|apply same_objects_refl]].
  unfold bind, liftW. pose proof (getNextSong_same ps pl w) as H1.
  destruct (Store.getNextSong ps pl w) as [r w1]. cbn [snd] in H1.
  destruct r as [s| |]; [|now split|now split].
  pose proof (playSound_same dev s w1) as H2.
  destruct (Store.playSound dev s w1) as [r2 w2]. cbn [snd fst] in *.
  split; [reflexivity|]. now apply same_objects_trans with w1.
Qed.

Lemma playMultiple_loop_same n : forall e w,
  fst (snd (AudioEngine.playMultiple_loop n (e, w))) = e
  /\ same_objects w (snd (snd (AudioEngine.playMultiple_loop n (e, w)))).
Proof.
  induction n as [|n IH]; intros e w.
  - split; [reflexivity | apply same_objects_refl].
  - cbn [AudioEngine.playMultiple_loop]. unfold bind.
    destruct (playNext_same e w) as [He Hw].
    destruct (AudioEngine.playNext (e, w)) as [r [e1 w1]]. cbn [fst snd] in He, Hw.
    subst e1. destruct r as [[]| |]; [|now split|now split].
    destruct (IH e w1) as [He' Hw']. split; [exact He'|].
    now apply same_objects_trans with w1.
Qed.

Lemma with_playlist_same g pm w :
  fst (snd (PlaylistManager.with_playlist g (pm, w))) = pm
  /\ same_objects w (snd (snd (PlaylistManager.with_playlist g (pm, w)))).
Proof.
  unfold PlaylistManager.with_playlist.
  destruct (playlists w !! PlaylistManager.playlist pm) as [p|] eqn:Hp;
    [|split; [reflexivity|apply same_objects_refl]].
  split; [reflexivity|]. split; [|split; [|split]]; try reflexivity.
  intros l. apply is_Some_insert_live. rewrite Hp. eauto.
Qed.

(** The first step of both [configure]s: the new device is made, stored in
    the manager, and the device the manager owned before is destroyed. *)
Lemma selectDevice_exact f w dt :
  facade_ok (f, w) ->
  let old := DeviceManager.device (MusicPlayerFacade.deviceManager f) in
  let l := next_loc w in
  MusicPlayerFacade.on_deviceManager (DeviceManager.selectDevice dt) (f, w)
  = match DeviceFactory.adapter dt with
    | Some a =>
        (Ok tt,
         (MusicPlayerFacade.set_deviceManager {| DeviceManager.device := Some l |} f,
          set_next_loc (Pos.succ l)
            (set_devices (release old (<[l := a]> (devices w))) w)))
    | None =>
        (Throw DeviceCreationFailed,
         (MusicPlayerFacade.set_deviceManager {| DeviceManager.device := None |} f,
          set_devices (release old (devices w)) w))
    end.
Proof.
  intros ((_ & _ & Hd) & _ & Hdev & _) old l.
  destruct f as [pm [o] sp en]. cbn in Hdev, old. subst old.
  unfold MusicPlayerFacade.on_deviceManager, on_member, DeviceManager.selectDevice,
    DeviceFactory.create.
  cbn [MusicPlayerFacade.deviceManager].
  destruct (DeviceFactory.adapter dt) as [a|].
  - unfold bind, liftW, ret, Store.new_device, DeviceManager.assign,
      DeviceManager.getDevice. cbn [DeviceManager.device]. fold l.
    destruct o as [d|]; [|destruct w; reflexivity].
    unfold Store.delete_device.
    destruct (Hdev d eq_refl) as [x Hx].
    assert (Hne : l <> d) by (specialize (Hd d (ex_intro _ x Hx)); subst l; lia).
    cbn [devices set_next_loc set_devices]. rewrite lookup_insert_ne, Hx by exact Hne.
    destruct w; reflexivity.
  - unfold bind, liftW, ret, throw, DeviceManager.assign, DeviceManager.getDevice.
    cbn [DeviceManager.device].
    destruct o as [d|]; [|destruct w; reflexivity].
    unfold Store.delete_device. destruct (Hdev d eq_refl) as [x Hx]. rewrite Hx.
    reflexivity.
Qed.

(** The second step: the same for the strategy. *)
Lemma build_strategy_exact f w pst :
  facade_ok (f, w) ->
  let old := MusicPlayerFacade.strategyPtr f in
  let l := next_loc w in
  MusicPlayerFacade.build_strategy pst (f, w)
  = match StrategyManager.fresh pst with
    | Some st =>
        (Ok tt,
         (MusicPlayerFacade.set_strategyPtr (Some l) f,
          set_next_loc (Pos.succ l)
            (set_strategies (release old (<[l := st]> (strategies w))) w)))
    | None =>
        (Throw InvalidStrategy,
         (MusicPlayerFacade.set_strategyPtr None f,
          set_strategies (release old (strategies w)) w))
    end.
Proof.
  intros ((_ & Hs & _) & _ & _ & Hsp) old l.
  destruct f as [pm dm o en]. cbn in Hsp, old. subst old.
  unfold MusicPlayerFacade.build_strategy, StrategyManager.createStrategy.
  destruct (StrategyManager.fresh pst) as [st|].
  - unfold bind, liftW, ret, Store.new_strategy, MusicPlayerFacade.assign_strategyPtr,
      MusicPlayerFacade.get_strategyPtr. cbn [MusicPlayerFacade.strategyPtr]. fold l.
    destruct o as [p|]; [|destruct w; reflexivity].
    unfold Store.delete_strategy.
    destruct (Hsp p eq_refl) as [x Hx].
    assert (Hne : l <> p) by (specialize (Hs p (ex_intro _ x Hx)); subst l; lia).
    cbn [strategies set_next_loc set_strategies]. rewrite lookup_insert_ne, Hx by exact Hne.
    destruct w; reflexivity.
  - unfold bind, liftW, ret, throw, MusicPlayerFacade.assign_strategyPtr,
      MusicPlayerFacade.get_strategyPtr. cbn [MusicPlayerFacade.strategyPtr].
    destruct o as [p|]; [|destruct w; reflexivity].
    unfold Store.delete_strategy. destruct (Hsp p eq_refl) as [x Hx]. rewrite Hx.
    reflexivity.
Qed.

(** The last step: the three setters of the engine, [setStrategy] with
    its [reset()]. *)
Lemma wire_exact f w p st :
  MusicPlayerFacade.strategyPtr f = Some p -> strategies w !! p = Some st ->
  MusicPlayerFacade.wire (f, w)
  = (Ok tt,
     (MusicPlayerFacade.set_engine
        {| AudioEngine.playlist :=
             Some (PlaylistManager.playlist (MusicPlayerFacade.playlistManager f));
           AudioEngine.strategy := Some p;
           AudioEngine.device :=
             DeviceManager.device (MusicPlayerFacade.deviceManager f) |} f,
      set_strategies (<[p := snd (PlayStrategy.reset st)]> (strategies w)) w)).
Proof.
  intros Hp Hst. destruct f as [[pl] [d] sp en]. cbn in Hp. subst sp.
  unfold MusicPlayerFacade.wire, bind, MusicPlayerFacade.on_deviceManager,
    MusicPlayerFacade.on_engine, MusicPlayerFacade.on_playlistManager, on_member,
    DeviceManager.getDevice, MusicPlayerFacade.get_strategyPtr,
    PlaylistManager.getPlaylist, AudioEngine.setDevice, AudioEngine.setStrategy,
    AudioEngine.loadPlaylist, liftW, Store.reset.
  cbn. rewrite Hst.
  destruct (PlayStrategy.reset st) as [r st'] eqn:Hreset.
  assert (r = Ok tt) as -> by (destruct st; cbn in Hreset; congruence).
  reflexivity.
Qed.

Lemma bind_preserves {S A B} (P : S -> Prop) (m : M S A) (k : A -> M S B) s :
  P (snd (m s)) ->
  (forall a s', m s = (Ok a, s') -> P s' -> P (snd (k a s'))) ->
  P (snd (bind m k s)).
Proof.
  intros Hm Hk. unfold bind. destruct (m s) as [[a|e|] s'] eqn:E; cbn [snd] in *;
    [now apply Hk | exact Hm | exact Hm].
Qed.

Ltac world_simpl :=
  unfold facade_ok, store_ok in *;
  unfold set_playlists, set_strategies, set_devices, set_next_loc, set_rng, set_cout in *;
  cbn [playlists strategies devices next_loc rng cout] in *.

Lemma selectDevice_ok dt s :
  facade_ok s ->
  facade_ok (snd (MusicPlayerFacade.on_deviceManager (DeviceManager.selectDevice dt) s)).
Proof.
  destruct s as [f w]. intros Hok. rewrite (selectDevice_exact f w dt Hok).
  destruct Hok as ((Hp & Hs & Hd) & Hpl & Hdev & Hsp).
  destruct (DeviceFactory.adapter dt) as [a|]; cbn [snd];
    destruct f as [pm [old] sp en]; cbn in Hpl, Hdev, Hsp |- *; world_simpl.
  - split; [split; [|split]|split; [|split]]; trivial.
    + intros l Hl. specialize (Hp l Hl). lia.
    + intros l Hl. specialize (Hs l Hl). lia.
    + intros l Hl. apply is_Some_release in Hl.
      destruct (decide (next_loc w = l)) as [<-|Hne]; [lia|].
      rewrite lookup_insert_ne in Hl by exact Hne. specialize (Hd l Hl). lia.
    + intros d [= <-]. rewrite lookup_release_ne, lookup_insert_eq; [eauto|].
      intros ->. specialize (Hd _ (Hdev _ eq_refl)). lia.
  - split; [split; [|split]|split; [|split]]; trivial.
    + intros l Hl. apply Hd. now apply is_Some_release in Hl.
    + intros d [=].
Qed.

Lemma build_strategy_ok pst s :
  facade_ok s -> facade_ok (snd (MusicPlayerFacade.build_strategy pst s)).
Proof.
  destruct s as [f w]. intros Hok. rewrite (build_strategy_exact f w pst Hok).
  destruct Hok as ((Hp & Hs & Hd) & Hpl & Hdev & Hsp).
  destruct (StrategyManager.fresh pst) as [st|]; cbn [snd];
    destruct f as [pm dm old en]; cbn in Hpl, Hdev, Hsp |- *; world_simpl.
  - split; [split; [|split]|split; [|split]]; trivial.
    + intros l Hl. specialize (Hp l Hl). lia.
    + intros l Hl. apply is_Some_release in Hl.
      destruct (decide (next_loc w = l)) as [<-|Hne]; [lia|].
      rewrite lookup_insert_ne in Hl by exact Hne. specialize (Hs l Hl). lia.
    + intros l Hl. specialize (Hd l Hl). lia.
    + intros p [= <-]. rewrite lookup_release_ne, lookup_insert_eq; [eauto|].
      intros ->. specialize (Hs _ (Hsp _ eq_refl)). lia.
  - split; [split; [|split]|split; [|split]]; trivial.
    + intros l Hl. apply Hs. now apply is_Some_release in Hl.
    + intros p [=].
Qed.

Lemma wire_ok s : facade_ok s -> facade_ok (snd (MusicPlayerFacade.wire s)).
Proof.
  destruct s as [f w]. intros Hok.
  destruct (MusicPlayerFacade.strategyPtr f) as [p|] eqn:Hp.
  - pose proof Hok as (_ & _ & _ & Hsp). destruct (Hsp p Hp) as [st Hst].
    rewrite (wire_exact f w p st Hp Hst). cbn [snd].
    apply facade_ok_same with f w; trivial.
    split; [|split; [|split]]; try reflexivity.
    intros l. apply is_Some_insert_live. rewrite Hst. eauto.
  - destruct f as [[pl] [d] sp en]. cbn in Hp. subst sp.
    apply facade_ok_same with
      {| MusicPlayerFacade.playlistManager := {| PlaylistManager.playlist := pl |};
         MusicPlayerFacade.deviceManager := {| DeviceManager.device := d |};
         MusicPlayerFacade.strategyPtr := None;
         MusicPlayerFacade.engine := en |} w;
      [exact Hok | apply same_objects_refl | reflexivity..].
Qed.

Lemma cast_and_setQueue_ok q s :
  facade_ok s -> facade_ok (snd (MusicPlayerFacade.cast_and_setQueue q s)).
Proof.
  destruct s as [f w]. intros Hok. unfold MusicPlayerFacade.cast_and_setQueue.
  destruct (MusicPlayerFacade.strategyPtr f) as [p|]; [|exact Hok].
  destruct (strategies w !! p) as [[s|s|s]|] eqn:Hst; try exact Hok.
  cbn [snd CustomQueueStrategy.setQueue].
  apply facade_ok_same with f w; trivial.
  split; [|split; [|split]]; try reflexivity.
  intros l. apply is_Some_insert_live. rewrite Hst. eauto.
Qed.

Lemma configure_ok dt pst s :
  facade_ok s -> facade_ok (snd (MusicPlayerFacade.configure dt pst s)).
Proof.
  intros Hok. unfold MusicPlayerFacade.configure.
  apply (bind_preserves facade_ok); [now apply selectDevice_ok|].
  intros _ s1 _ Hok1.
  apply (bind_preserves facade_ok); [now apply build_strategy_ok|].
  intros _ s2 _ Hok2. now apply wire_ok.
Qed.

Lemma configureCustom_ok dt q s :
  facade_ok s -> facade_ok (snd (MusicPlayerFacade.configureCustom dt q s)).
Proof.
  intros Hok. unfold MusicPlayerFacade.configureCustom.
  apply (bind_preserves facade_ok); [now apply selectDevice_ok|].
  intros _ s1 _ Hok1.
  apply (bind_preserves facade_ok); [now apply build_strategy_ok|].
  intros _ s2 _ Hok2.
  apply (bind_preserves facade_ok); [now apply cast_and_setQueue_ok|].
  intros _ s3 _ Hok3. now apply wire_ok.
Qed.

Lemma on_playlistManager_ok g s :
  facade_ok s ->
  facade_ok (snd (MusicPlayerFacade.on_playlistManager (PlaylistManager.with_playlist g) s)).
Proof.
  destruct s as [f w]. intros Hok.
  unfold MusicPlayerFacade.on_playlistManager, on_member.
  destruct (with_playlist_same g (MusicPlayerFacade.playlistManager f) w) as [E Hsame].
  destruct (PlaylistManager.with_playlist g _) as [r [pm' w']]. cbn [fst snd] in *.
  subst pm'. apply facade_ok_same with f w; trivial.
Qed.

Lemma on_engine_ok (m : M (AudioEngine.t * World) unit) s :
  (forall e w, same_objects w (snd (snd (m (e, w))))) ->
  facade_ok s -> facade_ok (snd (MusicPlayerFacade.on_engine m s)).
Proof.
  destruct s as [f w]. intros Hm Hok.
  unfold MusicPlayerFacade.on_engine, on_member.
  specialize (Hm (MusicPlayerFacade.engine f) w).
  destruct (m _) as [r [e' w']]. cbn [fst snd] in *.
  apply facade_ok_same with f w; trivial.
Qed.

(** Every method of the facade keeps what the facade owns alive. *)
Lemma api_call_ok c m s :
  api_call c m -> facade_ok s -> facade_ok (snd (m s)).
Proof.
  intros [song|index| |count|dt pst|dt q] Hok.
  - now apply on_playlistManager_ok.
  - now apply on_playlistManager_ok.
  - apply on_engine_ok; [|exact Hok]. intros e w. apply playNext_same.
  - apply on_engine_ok; [|exact Hok]. intros e w. apply playMultiple_loop_same.
  - now apply configure_ok.
  - now apply configureCustom_ok.
Qed.

Lemma session_facade_ok c s : session c s -> facade_ok s.
Proof.
  induction 1 as [w0 f w (Hp & Hs & Hd) Hc|c s c' m r s' _ IH Hcall Hm _].
  - unfold MusicPlayerFacade.construct, bind, Store.new_playlist, ret in Hc.
    injection Hc as <- <-. world_simpl.
    split; [split; [|split]|split; [|split]].
    + intros l Hl. destruct (decide (next_loc w0 = l)) as [<-|Hne]; [lia|].
      rewrite lookup_insert_ne in Hl by exact Hne. specialize (Hp l Hl). lia.
    + intros l Hl. specialize (Hs l Hl). lia.
    + intros l Hl. specialize (Hd l Hl). lia.
    + rewrite lookup_insert_eq. eauto.
    + intros d [=].
    + intros p [=].
  - pose proof (api_call_ok c' m s Hcall IH) as H. now rewrite Hm in H.
Qed.

(** ** [configure], step by step *)

Section Configure.
Variables (f : MusicPlayerFacade.t) (w : World).
Hypothesis Hok : facade_ok (f, w).

Local Abbreviation old_dev := (DeviceManager.device (MusicPlayerFacade.deviceManager f)).
Local Abbreviation old_sp := (MusicPlayerFacade.strategyPtr f).
Local Abbreviation l0 := (next_loc w).
Local Abbreviation l1 := (Pos.succ (next_loc w)).

(** After the device has been selected. *)
Local Abbreviation f1 :=
  (MusicPlayerFacade.set_deviceManager {| DeviceManager.device := Some l0 |} f).
Local Abbreviation w1 a :=
  (set_next_loc l1 (set_devices (release old_dev (<[l0 := a]> (devices w))) w)).

(** After the strategy has been built. *)
Local Abbreviation f2 := (MusicPlayerFacade.set_strategyPtr (Some l1) f1).
Local Abbreviation w2 a st :=
  (set_next_loc (Pos.succ l1)
     (set_strategies (release old_sp (<[l1 := st]> (strategies (w1 a)))) (w1 a))).

(** After the engine has been wired. *)
Local Abbreviation f3 :=
  (MusicPlayerFacade.set_engine
     {| AudioEngine.playlist :=
          Some (PlaylistManager.playlist (MusicPlayerFacade.playlistManager f));
        AudioEngine.strategy := Some l1;
        AudioEngine.device := Some l0 |} f2).

Lemma after_selectDevice_ok a : facade_ok (f1, w1 a).
Proof.
  assert (Hdt : exists dt, DeviceFactory.adapter dt = Some a).
  { destruct a; [exists BLUETOOTH | exists WIRED | exists HEADPHONES]; reflexivity. }
  destruct Hdt as [dt Hdt].
  pose proof (selectDevice_ok dt (f, w) Hok) as H.
  rewrite (selectDevice_exact f w dt Hok), Hdt in H. exact H.
Qed.

Lemma old_sp_not_new : old_sp <> Some l1.
Proof.
  destruct Hok as ((_ & Hs & _) & _ & _ & Hsp). intros E.
  specialize (Hs _ (Hsp _ E)). lia.
Qed.

Lemma built_strategy_live a st : strategies (w2 a st) !! l1 = Some st.
Proof.
  world_simpl. rewrite lookup_release_ne by exact old_sp_not_new.
  apply lookup_insert_eq.
Qed.

Lemma configure_exact dt pst :
  MusicPlayerFacade.configure dt pst (f, w)
  = match DeviceFactory.adapter dt with
    | None =>
        (Throw DeviceCreationFailed,
         (MusicPlayerFacade.set_deviceManager {| DeviceManager.device := None |} f,
          set_devices (release old_dev (devices w)) w))
    | Some a =>
        match StrategyManager.fresh pst with
        | None =>
            (Throw InvalidStrategy,
             (MusicPlayerFacade.set_strategyPtr None f1,
              set_strategies (release old_sp (strategies (w1 a))) (w1 a)))
        | Some st =>
            (Ok tt,
             (f3, set_strategies
                    (<[l1 := snd (PlayStrategy.reset st)]> (strategies (w2 a st)))
                    (w2 a st)))
        end
    end.
Proof.
  unfold MusicPlayerFacade.configure.
  pose proof (selectDevice_exact f w dt Hok) as HA. cbn zeta in HA.
  destruct (DeviceFactory.adapter dt) as [a|]; [|now apply bind_Throw].
  rewrite (bind_Ok _ _ _ _ _ HA).
  pose proof (build_strategy_exact f1 (w1 a) pst (after_selectDevice_ok a)) as HB.
  cbn zeta in HB.
  destruct (StrategyManager.fresh pst) as [st|]; [|now apply bind_Throw].
  rewrite (bind_Ok _ _ _ _ _ HB).
  apply (wire_exact f2 (w2 a st) l1 st); [reflexivity | apply built_strategy_live].
Qed.

Lemma configureCustom_exact dt q :
  let made := PlayStrategy.CustomQueue CustomQueueStrategy.init in
  let queued :=
    PlayStrategy.CustomQueue
      {| CustomQueueStrategy.queueIndices := q; CustomQueueStrategy.pos := 0 |} in
  MusicPlayerFacade.configureCustom dt q (f, w)
  = match DeviceFactory.adapter dt with
    | None =>
        (Throw DeviceCreationFailed,
         (MusicPlayerFacade.set_deviceManager {| DeviceManager.device := None |} f,
          set_devices (release old_dev (devices w)) w))
    | Some a =>
        (Ok tt,
         (f3, set_strategies
                (<[l1 := queued]> (<[l1 := queued]> (strategies (w2 a made))))
                (w2 a made)))
    end.
Proof.
  intros made queued. unfold MusicPlayerFacade.configureCustom.
  pose proof (selectDevice_exact f w dt Hok) as HA. cbn zeta in HA.
  destruct (DeviceFactory.adapter dt) as [a|]; [|now apply bind_Throw].
  rewrite (bind_Ok _ _ _ _ _ HA).
  pose proof (build_strategy_exact f1 (w1 a) CUSTOM_QUEUE (after_selectDevice_ok a)) as HB.
  cbn zeta in HB. change (StrategyManager.fresh CUSTOM_QUEUE) with (Some made) in HB.
  rewrite (bind_Ok _ _ _ _ _ HB).
  assert (HC : MusicPlayerFacade.cast_and_setQueue q (f2, w2 a made)
               = (Ok tt, (f2, set_strategies (<[l1 := queued]> (strategies (w2 a made)))
                                (w2 a made)))).
  { unfold MusicPlayerFacade.cast_and_setQueue.
    change (MusicPlayerFacade.strategyPtr f2) with (Some l1). cbv beta iota.
    now rewrite built_strategy_live. }
  rewrite (bind_Ok _ _ _ _ _ HC).
  rewrite (wire_exact f2 _ l1 queued); [destruct w; reflexivity | reflexivity |].
  world_simpl. apply lookup_insert_eq.
Qed.
End Configure.

Lemma device_type_adapter dt :
  device_type dt -> exists a, DeviceFactory.adapter dt = Some a.
Proof. intros [-> | [-> | ->]]; eexists; reflexivity. Qed.

Lemma strategy_type_fresh pst :
  strategy_type pst ->
  exists st, StrategyManager.fresh pst = Some st
             /\ PlayStrategy.reset st = (Ok tt, st) /\ cursor_initial st.
Proof. intros [-> | [-> | ->]]; eexists; repeat split; reflexivity. Qed.

Lemma reset_cursor_initial st :
  fst (PlayStrategy.reset st) = Ok tt /\ cursor_initial (snd (PlayStrategy.reset st)).
Proof. destruct st; now split. Qed.

(** What the whole call leaves, and the state after its first step. *)
Lemma configure_result c f w dt pst :
  session c (f, w) -> device_type dt -> strategy_type pst ->
  let old_dev := DeviceManager.device (MusicPlayerFacade.deviceManager f) in
  let old_sp := MusicPlayerFacade.strategyPtr f in
  let s1 :=
    after (MusicPlayerFacade.on_deviceManager (DeviceManager.selectDevice dt)) (f, w) in
  let s' := after (MusicPlayerFacade.configure dt pst) (f, w) in
  (MusicPlayerFacade.engine (fst s1) = MusicPlayerFacade.engine f
   /\ forall d, old_dev = Some d -> devices (snd s1) !! d = None)
  /\ fst (MusicPlayerFacade.configure dt pst (f, w)) = Ok tt
  /\ (exists a st d' p',
        DeviceFactory.adapter dt = Some a /\ StrategyManager.fresh pst = Some st
        /\ DeviceManager.device (MusicPlayerFacade.deviceManager (fst s')) = Some d'
        /\ MusicPlayerFacade.strategyPtr (fst s') = Some p'
        /\ MusicPlayerFacade.engine (fst s')
           = {| AudioEngine.playlist :=
                  Some (PlaylistManager.playlist (MusicPlayerFacade.playlistManager f));
                AudioEngine.strategy := Some p';
                AudioEngine.device := Some d' |}
        /\ devices (snd s') !! d' = Some a
        /\ strategies (snd s') !! p' = Some st
        /\ MusicPlayerFacade.playlistManager (fst s') = MusicPlayerFacade.playlistManager f
        /\ playlists (snd s') = playlists w)
  /\ wired s'
  /\ (forall d, old_dev = Some d -> devices (snd s') !! d = None)
  /\ (forall p, old_sp = Some p -> strategies (snd s') !! p = None)
  /\ (forall bad, StrategyManager.fresh bad = None ->
        fst (MusicPlayerFacade.configure dt bad (f, w)) = Throw InvalidStrategy
        /\ MusicPlayerFacade.engine (fst (after (MusicPlayerFacade.configure dt bad) (f, w)))
           = MusicPlayerFacade.engine f).
Proof.
  intros Hs Hdt Hpst old_dev old_sp s1 s'.
  pose proof (session_facade_ok _ _ Hs) as Hok.
  destruct (device_type_adapter dt Hdt) as [a Ha].
  destruct (strategy_type_fresh pst Hpst) as (st & Hst & Hreset & _).
  pose proof Hok as ((Hp & Hss & Hd) & Hpl & Hdev & Hsp).
  assert (Hold_dev : old_dev <> Some (next_loc w)).
  { intros E. specialize (Hd _ (Hdev _ E)). lia. }
  assert (Hold_sp : old_sp <> Some (Pos.succ (next_loc w))).
  { now apply old_sp_not_new. }
  subst s1 s'. unfold after.
  rewrite (selectDevice_exact f w dt Hok), (configure_exact f w Hok dt pst), Ha, Hst, Hreset.
  cbn [fst snd]. world_simpl.
  split; [split; [now destruct f|]|].
  { intros d Hd'. fold old_dev. rewrite Hd'. apply lookup_release_eq. }
  split; [reflexivity|]. split; [|split; [|split; [|split]]].
  - exists a, st, (next_loc w), (Pos.succ (next_loc w)).
    repeat (split; [reflexivity|]).
    split; [|split; [|split; [|split]]]; try reflexivity.
    + fold old_dev. rewrite lookup_release_ne by exact Hold_dev. apply lookup_insert_eq.
    + apply lookup_insert_eq.
  - split; [|split]; cbn.
    + eexists. split; [reflexivity | exact Hpl].
    + eexists. split; [reflexivity|]. rewrite lookup_insert_eq. eauto.
    + eexists. split; [reflexivity|]. fold old_dev.
      rewrite lookup_release_ne by exact Hold_dev. rewrite lookup_insert_eq. eauto.
  - intros d Hd'. fold old_dev. rewrite Hd'. apply lookup_release_eq.
  - intros p Hp'. fold old_sp. rewrite Hp' in Hold_sp |- *.
    rewrite lookup_insert_ne by congruence. apply lookup_release_eq.
  - intros bad Hbad. rewrite (configure_exact f w Hok dt bad), Ha, Hbad.
    split; [reflexivity | now destruct f].
Qed.


(** The three steps of [configure] one by one: the outcome of each, and
    what the facade, the engine and the store are after it. *)
Lemma configure_steps f w dt pst a st :
  facade_ok (f, w) ->
  DeviceFactory.adapter dt = Some a -> StrategyManager.fresh pst = Some st ->
  let old_dev := DeviceManager.device (MusicPlayerFacade.deviceManager f) in
  let old_sp := MusicPlayerFacade.strategyPtr f in
  let select := MusicPlayerFacade.on_deviceManager (DeviceManager.selectDevice dt) in
  let s1 := after select (f, w) in
  let s2 := after (MusicPlayerFacade.build_strategy pst) s1 in
  fst (select (f, w)) = Ok tt
  /\ fst (MusicPlayerFacade.build_strategy pst s1) = Ok tt
  /\ MusicPlayerFacade.engine (fst s2) = MusicPlayerFacade.engine f
  /\ (forall d, old_dev = Some d -> devices (snd s2) !! d = None)
  /\ (forall p, old_sp = Some p -> strategies (snd s2) !! p = None)
  /\ (exists d' p',
        DeviceManager.device (MusicPlayerFacade.deviceManager (fst s2)) = Some d'
        /\ devices (snd s2) !! d' = Some a
        /\ MusicPlayerFacade.strategyPtr (fst s2) = Some p'
        /\ strategies (snd s2) !! p' = Some st)
  /\ MusicPlayerFacade.configure dt pst (f, w) = MusicPlayerFacade.wire s2.
Proof.
  intros Hok Ha Hst old_dev old_sp select s1 s2.
  pose proof Hok as ((_ & _ & Hd) & _ & Hdev & _).
  assert (Hold_dev : old_dev <> Some (next_loc w)).
  { intros E. specialize (Hd _ (Hdev _ E)). lia. }
  pose proof (old_sp_not_new f w Hok) as Hold_sp.
  pose proof (selectDevice_exact f w dt Hok) as HA. cbn zeta in HA. rewrite Ha in HA.
  fold select in HA.
  assert (E1 : s1 = snd (select (f, w))) by reflexivity. rewrite HA in E1. cbn [snd] in E1.
  pose proof (after_selectDevice_ok f w Hok a) as Hok1.
  pose proof (build_strategy_exact _ _ pst Hok1) as HB. cbn zeta in HB. rewrite Hst in HB.
  rewrite <- E1 in HB.
  assert (E2 : s2 = snd (MusicPlayerFacade.build_strategy pst s1)) by reflexivity.
  rewrite HB in E2. cbn [snd] in E2.
  split; [now rewrite HA|]. split; [now rewrite HB|].
  assert (Hcfg : MusicPlayerFacade.configure dt pst (f, w) = MusicPlayerFacade.wire s2).
  { unfold MusicPlayerFacade.configure. fold select.
    rewrite (bind_Ok _ _ _ _ _ HA). rewrite <- E1.
    rewrite (bind_Ok _ _ _ _ _ HB). now rewrite <- E2. }
  rewrite E2. cbn [fst snd]. world_simpl.
  change (MusicPlayerFacade.strategyPtr (MusicPlayerFacade.set_deviceManager _ f))
    with old_sp.
  split; [now destruct f|]. split; [|split; [|split]].
  - intros d Hd'. fold old_dev. rewrite Hd'. apply lookup_release_eq.
  - intros p Hp'. rewrite Hp'. apply lookup_release_eq.
  - exists (next_loc w), (Pos.succ (next_loc w)).
    split; [reflexivity|]. split; [|split; [reflexivity|]].
    + fold old_dev. rewrite lookup_release_ne by exact Hold_dev. apply lookup_insert_eq.
    + rewrite lookup_release_ne by exact Hold_sp. apply lookup_insert_eq.
  - rewrite Hcfg, E2. reflexivity.
Qed.

(** C7, as the code has it.  [configure(deviceKind, strategyKind)] replaces
    the prior configuration in three steps, each of which returns when both
    kinds are enumerators.  First the device is selected: this destroys the
    device owned before, while the engine still has the pointers it had.
    Second the new strategy is stored: this destroys the strategy owned
    before, and after it the facade owns the new device and the new
    strategy, both alive, both old objects are gone, and the engine still
    has the pointers it had.  Only third, from that state, is the engine
    given the new device, the new strategy and the playlist: the call is
    the wiring run on the state the first two steps leave.  Afterwards the
    engine points to the new device and the new strategy, and the old ones
    are gone.  When the strategy kind is no enumerator the call throws
    InvalidStrategy with the pointers of the engine as they were. *)
Theorem configure_replaces_stepwise c f w dt pst :
  session c (f, w) -> device_type dt -> strategy_type pst ->
  let old_dev := DeviceManager.device (MusicPlayerFacade.deviceManager f) in
  let old_sp := MusicPlayerFacade.strategyPtr f in
  let select := MusicPlayerFacade.on_deviceManager (DeviceManager.selectDevice dt) in
  let s1 := after select (f, w) in
  let s2 := after (MusicPlayerFacade.build_strategy pst) s1 in
  let s' := after (MusicPlayerFacade.configure dt pst) (f, w) in
  (fst (select (f, w)) = Ok tt
   /\ MusicPlayerFacade.engine (fst s1) = MusicPlayerFacade.engine f
   /\ forall d, old_dev = Some d -> devices (snd s1) !! d = None)
  /\ (fst (MusicPlayerFacade.build_strategy pst s1) = Ok tt
      /\ MusicPlayerFacade.engine (fst s2) = MusicPlayerFacade.engine f
      /\ (forall d, old_dev = Some d -> devices (snd s2) !! d = None)
      /\ (forall p, old_sp = Some p -> strategies (snd s2) !! p = None)
      /\ exists a st d' p',
           DeviceFactory.adapter dt = Some a /\ StrategyManager.fresh pst = Some st
           /\ DeviceManager.device (MusicPlayerFacade.deviceManager (fst s2)) = Some d'
           /\ devices (snd s2) !! d' = Some a
           /\ MusicPlayerFacade.strategyPtr (fst s2) = Some p'
           /\ strategies (snd s2) !! p' = Some st)
  /\ (MusicPlayerFacade.configure dt pst (f, w) = MusicPlayerFacade.wire s2
      /\ MusicPlayerFacade.wire s2 = (Ok tt, s'))
  /\ fst (MusicPlayerFacade.configure dt pst (f, w)) = Ok tt
  /\ (exists a st d' p',
        DeviceFactory.adapter dt = Some a /\ StrategyManager.fresh pst = Some st
        /\ DeviceManager.device (MusicPlayerFacade.deviceManager (fst s')) = Some d'
        /\ MusicPlayerFacade.strategyPtr (fst s') = Some p'
        /\ MusicPlayerFacade.engine (fst s')
           = {| AudioEngine.playlist :=
                  Some (PlaylistManager.playlist (MusicPlayerFacade.playlistManager f));
                AudioEngine.strategy := Some p';
                AudioEngine.device := Some d' |}
        /\ devices (snd s') !! d' = Some a
        /\ strategies (snd s') !! p' = Some st
        /\ MusicPlayerFacade.playlistManager (fst s') = MusicPlayerFacade.playlistManager f
        /\ playlists (snd s') = playlists w)
  /\ wired s'
  /\ (forall d, old_dev = Some d -> devices (snd s') !! d = None)
  /\ (forall p, old_sp = Some p -> strategies (snd s') !! p = None)
  /\ (forall bad, StrategyManager.fresh bad = None ->
        fst (MusicPlayerFacade.configure dt bad (f, w)) = Throw InvalidStrategy
        /\ MusicPlayerFacade.engine (fst (after (MusicPlayerFacade.configure dt bad) (f, w)))
           = MusicPlayerFacade.engine f).
Proof.
  intros Hs Hdt Hpst old_dev old_sp select s1 s2 s'.
  pose proof (session_facade_ok _ _ Hs) as Hok.
  destruct (device_type_adapter dt Hdt) as [a Ha].
  destruct (strategy_type_fresh pst Hpst) as (st & Hst & _).
  destruct (configure_result c f w dt pst Hs Hdt Hpst)
    as ((He1 & Hd1) & Hret & Hnew & Hwired & Hdgone & Hsgone & Hbad).
  destruct (configure_steps f w dt pst a st Hok Ha Hst)
    as (Hr1 & Hr2 & He2 & Hd2 & Hs2 & (d' & p' & Hown) & Hcfg).
  fold select s1 s2 in Hr1, Hr2, He2, Hd2, Hs2, Hown, Hcfg.
  split; [split; [exact Hr1 | split; [exact He1 | exact Hd1]]|].
  split.
  { split; [exact Hr2|]. split; [exact He2|]. split; [exact Hd2|]. split; [exact Hs2|].
    exists a, st, d', p'. split; [exact Ha|]. split; [exact Hst|].
    destruct Hown as (H1 & H2 & H3 & H4). repeat split; assumption. }
  split.
  { split; [exact Hcfg|]. rewrite <- Hcfg. subst s'. unfold after.
    destruct (MusicPlayerFacade.configure dt pst (f, w)) as [r sx].
    cbn [fst snd] in Hret |- *. now subst r. }
  split; [exact Hret|]. split; [exact Hnew|]. split; [exact Hwired|].
  split; [exact Hdgone|]. split; [exact Hsgone | exact Hbad].
Qed.

Lemma store_ok_boot g : store_ok (boot g).
Proof.
  repeat split; intros l [x Hx]; cbn in Hx; rewrite lookup_empty in Hx; discriminate.
Qed.

Lemma session_step c s c' m :
  session c s -> api_call c' m -> fst (m s) <> Undefined ->
  session (c || c') (after m s).
Proof.
  intros Hs Hcall Hr. apply session_call with s m (fst (m s)); trivial.
  unfold after. now destruct (m s).
Qed.

Lemma demo_loaded_session : session false demo_loaded.
Proof.
  assert (H0 : session false demo_constructed).
  { apply session_start with (boot demo_rng); [apply store_ok_boot | reflexivity]. }
  assert (H1 := session_step _ _ _ _ H0 (call_addSong demo_a)
                  ltac:(vm_compute; discriminate)).
  assert (H2 := session_step _ _ _ _ H1 (call_addSong demo_b)
                  ltac:(vm_compute; discriminate)).
  assert (H3 := session_step _ _ _ _ H2 (call_addSong demo_c)
                  ltac:(vm_compute; discriminate)).
  exact (session_step _ _ _ _ H3 (call_addSong demo_d)
           ltac:(vm_compute; discriminate)).
Qed.

Lemma demo_sequential_session : session true demo_sequential.
Proof.
  exact (session_step _ _ _ _ demo_loaded_session
           (call_configure HEADPHONES SEQUENTIAL) ltac:(vm_compute; discriminate)).
Qed.

Lemma configure_replaces_stepwise_witness :
  session true demo_sequential /\ device_type BLUETOOTH /\ strategy_type RANDOM
  /\ fst (MusicPlayerFacade.configure BLUETOOTH RANDOM demo_sequential) = Ok tt
  /\ wired (after (MusicPlayerFacade.configure BLUETOOTH RANDOM) demo_sequential).
Proof.
  assert (Hdt : device_type BLUETOOTH) by (left; reflexivity).
  assert (Hpst : strategy_type RANDOM) by (right; left; reflexivity).
  split; [exact demo_sequential_session|]. split; [exact Hdt|]. split; [exact Hpst|].
  destruct (configure_replaces_stepwise true (fst demo_sequential) (snd demo_sequential)
              BLUETOOTH RANDOM demo_sequential_session Hdt Hpst)
    as (_ & _ & _ & Hret & _ & Hwired & _).
  split; [exact Hret | exact Hwired].
Defined.

(** C7 as stated fails.  In the session of [main] after its first
    [configure] the engine is wired and [playNext] returns.  Selecting the
    next device alone already leaves the engine pointing to a destroyed
    device; and a [configure] whose strategy kind is no enumerator throws
    InvalidStrategy with the old device and the old strategy destroyed and
    the engine still pointing to both, so that the next [playNext] is
    [Undefined]. *)
Lemma configure_atomic_counterexample :
  let s := demo_sequential in
  let bad : PlayStrategyType := 7%Z in
  let s1 :=
    after (MusicPlayerFacade.on_deviceManager (DeviceManager.selectDevice BLUETOOTH)) s in
  let s' := after (MusicPlayerFacade.configure BLUETOOTH bad) s in
  (wired s /\ fst (MusicPlayerFacade.playNext s) = Ok tt)
  /\ ~ wired s1
  /\ fst (MusicPlayerFacade.configure BLUETOOTH bad s) = Throw InvalidStrategy
  /\ MusicPlayerFacade.engine (fst s') = MusicPlayerFacade.engine (fst s)
  /\ ~ wired s'
  /\ fst (MusicPlayerFacade.playNext s') = Undefined.
Proof.
  intros s bad s1 s'.
  split; [split|split; [|split; [|split; [|split]]]].
  - split; [|split]; eexists; (split; [reflexivity|]); vm_compute; eauto.
  - vm_compute. reflexivity.
  - intros (_ & _ & dev & Hdev & Hlive).
    vm_compute in Hdev. injection Hdev as <-.
    vm_compute in Hlive. destruct Hlive as [x Hx]. discriminate.
  - vm_compute. reflexivity.
  - vm_compute. reflexivity.
  - intros (_ & _ & dev & Hdev & Hlive).
    vm_compute in Hdev. injection Hdev as <-.
    vm_compute in Hlive. destruct Hlive as [x Hx]. discriminate.
  - vm_compute. reflexivity.
Qed.

(** C8. [setStrategy] stores the pointer and calls [reset()] on the
    object, which puts its cursor where the constructor puts it.  So after
    every [configure] and [configureCustom] that returns, in whatever
    session, the strategy of the engine is alive with its cursor at the
    start (for [configureCustom], on the queue given); the calls do return
    when the kinds are enumerators.  In the session of [main], reconfigured
    with the same strategy kind after two of four tracks, the next track
    played is the first one. *)
Theorem configure_resets_cursor :
  (forall e w p st,
      strategies w !! p = Some st ->
      exists st',
        PlayStrategy.reset st = (Ok tt, st') /\ cursor_initial st'
        /\ AudioEngine.setStrategy (Some p) (e, w)
           = (Ok tt,
              ({| AudioEngine.playlist := AudioEngine.playlist e;
                  AudioEngine.strategy := Some p;
                  AudioEngine.device := AudioEngine.device e |},
               set_strategies (<[p := st']> (strategies w)) w)))
  /\ (forall c s dt pst s',
        session c s -> MusicPlayerFacade.configure dt pst s = (Ok tt, s') ->
        exists p st,
          AudioEngine.strategy (MusicPlayerFacade.engine (fst s')) = Some p
          /\ strategies (snd s') !! p = Some st /\ cursor_initial st)
  /\ (forall c s dt q s',
        session c s -> MusicPlayerFacade.configureCustom dt q s = (Ok tt, s') ->
        exists p,
          AudioEngine.strategy (MusicPlayerFacade.engine (fst s')) = Some p
          /\ strategies (snd s') !! p
             = Some (PlayStrategy.CustomQueue
                       {| CustomQueueStrategy.queueIndices := q;
                          CustomQueueStrategy.pos := 0 |}))
  /\ (forall c s dt pst,
        session c s -> device_type dt -> strategy_type pst ->
        fst (MusicPlayerFacade.configure dt pst s) = Ok tt)
  /\ (forall c s dt q,
        session c s -> device_type dt ->
        fst (MusicPlayerFacade.configureCustom dt q s) = Ok tt)
  /\ (let s := after (MusicPlayerFacade.configure HEADPHONES SEQUENTIAL ;;
                      MusicPlayerFacade.playMultiple 2) demo_loaded in
      let s' := after (MusicPlayerFacade.configure BLUETOOTH SEQUENTIAL) s in
      strategies (snd s) !! 3%positive
      = Some (PlayStrategy.Sequential {| SequentialPlayStrategy.index := 2 |})
      /\ AudioEngine.strategy (MusicPlayerFacade.engine (fst s')) = Some 5%positive
      /\ strategies (snd s') !! 5%positive
         = Some (PlayStrategy.Sequential {| SequentialPlayStrategy.index := 0 |})
      /\ cout (snd (after MusicPlayerFacade.playNext s'))
         = (cout (snd s')
            ++ ["[BluetoothSpeakerAPI] Playing data: Bluetooth play: Lose Yourself by Eminem"])%list).
Proof.
  split; [|split; [|split; [|split; [|split]]]].
  - intros e w p st Hst. destruct (reset_cursor_initial st) as [Hr Hc].
    exists (snd (PlayStrategy.reset st)).
    split; [now destruct (PlayStrategy.reset st); cbn in Hr |- *; subst|].
    split; [exact Hc|].
    unfold AudioEngine.setStrategy, liftW, Store.reset. rewrite Hst.
    destruct (PlayStrategy.reset st) as [r st']. cbn in Hr |- *. now subst r.
  - intros c [f w] dt pst s' Hs Hconf.
    pose proof (session_facade_ok _ _ Hs) as Hok.
    rewrite (configure_exact f w Hok dt pst) in Hconf.
    destruct (DeviceFactory.adapter dt) as [a|]; [|discriminate].
    destruct (StrategyManager.fresh pst) as [st|]; [|discriminate].
    injection Hconf as <-. cbn [fst snd].
    exists (Pos.succ (next_loc w)), (snd (PlayStrategy.reset st)).
    split; [reflexivity|]. split; [apply lookup_insert_eq | apply reset_cursor_initial].
  - intros c [f w] dt q s' Hs Hconf.
    pose proof (session_facade_ok _ _ Hs) as Hok.
    rewrite (configureCustom_exact f w Hok dt q) in Hconf.
    destruct (DeviceFactory.adapter dt) as [a|]; [|discriminate].
    injection Hconf as <-. cbn [fst snd].
    exists (Pos.succ (next_loc w)). split; [reflexivity | apply lookup_insert_eq].
  - intros c [f w] dt pst Hs Hdt Hpst.
    pose proof (session_facade_ok _ _ Hs) as Hok.
    destruct (device_type_adapter dt Hdt) as [a Ha].
    destruct (strategy_type_fresh pst Hpst) as (st & Hst & _).
    now rewrite (configure_exact f w Hok dt pst), Ha, Hst.
  - intros c [f w] dt q Hs Hdt.
    pose proof (session_facade_ok _ _ Hs) as Hok.
    destruct (device_type_adapter dt Hdt) as [a Ha].
    now rewrite (configureCustom_exact f w Hok dt q), Ha.
  - vm_compute. repeat split; reflexivity.
Qed.

Lemma configure_resets_cursor_witness :
  let s := after (MusicPlayerFacade.playMultiple 2) demo_sequential in
  let s' := after (MusicPlayerFacade.configure BLUETOOTH SEQUENTIAL) s in
  session true s
  /\ strategies (snd s) !! 3%positive
     = Some (PlayStrategy.Sequential {| SequentialPlayStrategy.index := 2 |})
  /\ MusicPlayerFacade.configure BLUETOOTH SEQUENTIAL s = (Ok tt, s')
  /\ exists p st,
       AudioEngine.strategy (MusicPlayerFacade.engine (fst s')) = Some p
       /\ strategies (snd s') !! p = Some st /\ cursor_initial st.
Proof.
  intros s s'.
  assert (Hs : session true s).
  { exact (session_step _ _ _ _ demo_sequential_session (call_playMultiple 2)
             ltac:(vm_compute; discriminate)). }
  assert (Hconf : MusicPlayerFacade.configure BLUETOOTH SEQUENTIAL s = (Ok tt, s'))
    by (vm_compute; reflexivity).
  split; [exact Hs|]. split; [vm_compute; reflexivity|]. split; [exact Hconf|].
  exact (proj1 (proj2 configure_resets_cursor) true s BLUETOOTH SEQUENTIAL s' Hs Hconf).
Defined.

(** * Further properties of the code *)

(** ** Playlist *)

(** X1. [addSong] appends: the playlist is one track longer, every track
    keeps its position and the new track is at the old size; and
    [removeSong] at that position undoes it. *)
Theorem addSong_appends (pl : Playlist.t) (song : Song) :
  Playlist.size (Playlist.addSong song pl) = Playlist.size pl + 1
  /\ (forall j, j < Playlist.size pl ->
        Playlist.at_ (Playlist.addSong song pl) j = Playlist.at_ pl j)
  /\ Playlist.at_ (Playlist.addSong song pl) (Playlist.size pl) = Some song
  /\ Playlist.removeSong (Playlist.size pl) (Playlist.addSong song pl) = pl.
Proof.
  destruct pl as [l].
  unfold Playlist.removeSong, Playlist.addSong, Playlist.at_, Playlist.size.
  cbn [Playlist.songs]. rewrite length_app. cbn [length].
  split; [lia|]. split; [|split].
  - intros j Hj. apply lookup_app_l. lia.
  - rewrite Nat2N.id. apply list_lookup_middle. reflexivity.
  - destruct (N.ltb_spec (N.of_nat (length l)) (N.of_nat (length l + 1))) as [_|]; [|lia].
    rewrite Nat2N.id, delete_middle. now rewrite app_nil_r.
Qed.

(** ** Sequential, on a playlist that changes between calls *)

(** X2. Whatever the cursor of a Sequential strategy is, for instance left
    beyond the end by tracks removed since the last call, [getNextSong] on
    a non-empty playlist reads inside the playlist: it returns the track at
    [index mod size], a member, and leaves a cursor below the size.  On an
    empty playlist it throws EmptyPlaylist and keeps the cursor. *)
Theorem sequential_any_cursor (pl : Playlist.t) (st : SequentialPlayStrategy.t) :
  (Playlist.size pl <> 0 ->
     exists s,
       Playlist.at_ pl (SequentialPlayStrategy.index st mod Playlist.size pl) = Some s
       /\ s ∈ Playlist.songs pl
       /\ SequentialPlayStrategy.getNextSong pl st
          = (Ok s, {| SequentialPlayStrategy.index :=
                        wrap (SequentialPlayStrategy.index st + 1) mod Playlist.size pl |})
       /\ SequentialPlayStrategy.index
            (snd (SequentialPlayStrategy.getNextSong pl st)) < Playlist.size pl)
  /\ (Playlist.size pl = 0 ->
        SequentialPlayStrategy.getNextSong pl st = (Throw EmptyPlaylist, st)).
Proof.
  split.
  - intros Hne.
    pose proof (N.mod_upper_bound (SequentialPlayStrategy.index st) _ Hne) as Hlt.
    destruct (lookup_lt_is_Some_2 (Playlist.songs pl)
                (N.to_nat (SequentialPlayStrategy.index st mod Playlist.size pl)))
      as [s Hs].
    { unfold Playlist.size in Hlt |- *. lia. }
    exists s. split; [exact Hs|]. split; [exact (list_elem_of_lookup_2 _ _ _ Hs)|].
    unfold SequentialPlayStrategy.getNextSong.
    destruct (N.eqb_spec (Playlist.size pl) 0) as [|_]; [contradiction|].
    unfold Playlist.at_ in Hs |- *. rewrite Hs. split; [reflexivity|].
    cbn [snd SequentialPlayStrategy.index]. now apply N.mod_upper_bound.
  - intros E. unfold SequentialPlayStrategy.getNextSong. now rewrite E.
Qed.

Lemma sequential_any_cursor_witness :
  let shrunk := Playlist.removeSong 0 (Playlist.removeSong 0 demo_playlist) in
  let st := {| SequentialPlayStrategy.index := 3 |} in
  Playlist.size shrunk <> 0
  /\ exists s, s ∈ Playlist.songs shrunk
               /\ fst (SequentialPlayStrategy.getNextSong shrunk st) = Ok s.
Proof.
  intros shrunk st.
  assert (Hne : Playlist.size shrunk <> 0) by discriminate.
  split; [exact Hne|].
  destruct (proj1 (sequential_any_cursor shrunk st) Hne) as (s & _ & Hin & Hcall & _).
  exists s. split; [exact Hin | now rewrite Hcall].
Defined.

Lemma addSong_appends_witness :
  1 < Playlist.size demo_playlist
  /\ Playlist.at_ (Playlist.addSong demo_a demo_playlist) 1 = Playlist.at_ demo_playlist 1.
Proof.
  assert (H : 1 < Playlist.size demo_playlist) by reflexivity.
  split; [exact H|].
  exact (proj1 (proj2 (addSong_appends demo_playlist demo_a)) 1 H).
Defined.

(** ** CustomQueue, a whole round *)

Lemma cq_round_from pl q (k : nat) : forall p : nat,
  N.of_nat (length q) < 2 ^ SIZE_WIDTH ->
  (p + k <= length q)%nat ->
  Forall (fun idx => idx < Playlist.size pl) q ->
  exists l,
    calls (CustomQueueStrategy.getNextSong pl) k
      {| CustomQueueStrategy.queueIndices := q;
         CustomQueueStrategy.pos := N.of_nat (p mod length q) |}
    = (Ok l, {| CustomQueueStrategy.queueIndices := q;
                CustomQueueStrategy.pos := N.of_nat ((p + k) mod length q) |})
    /\ tracks_at pl (take k (drop p q)) l.
Proof.
  induction k as [|k IH]; intros p Hq Hk Hin.
  - exists []. rewrite Nat.add_0_r. split; [reflexivity | constructor].
  - destruct (lookup_lt_is_Some_2 q p) as [idx Hidx]; [lia|].
    assert (Hlt : idx < Playlist.size pl).
    { rewrite Forall_forall in Hin. apply Hin.
      exact (list_elem_of_lookup_2 _ _ _ Hidx). }
    destruct (lookup_lt_is_Some_2 (Playlist.songs pl) (N.to_nat idx)) as [s Hs].
    { unfold Playlist.size in Hlt. lia. }
    destruct (IH (S p) Hq) as (l & Hrun & Hl); [lia | exact Hin |].
    exists (s :: l). split.
    + cbn [calls]. rewrite Nat.mod_small by lia.
      rewrite (bind_Ok _ _ _ _ _ (cq_step pl q p idx s Hq Hidx Hs)).
      rewrite (bind_Ok _ _ _ _ _ Hrun). unfold ret. do 3 f_equal. f_equal. lia.
    + rewrite (drop_S _ _ _ Hidx). cbn [take]. constructor; [exact Hs | exact Hl].
Qed.

(** X3. With a non-empty queue whose entries are all inside the playlist,
    the CustomQueue traversal has period [len(queue)]: the [len(queue)]
    calls after [setQueue], and after [reset()] whatever the cursor was,
    return the tracks at the entries of the queue in order and leave the
    cursor at 0 again. *)
Theorem customQueue_round (pl : Playlist.t) (q : list N) :
  q <> [] -> N.of_nat (length q) < 2 ^ SIZE_WIDTH ->
  Forall (fun idx => idx < Playlist.size pl) q ->
  let start := {| CustomQueueStrategy.queueIndices := q; CustomQueueStrategy.pos := 0 |} in
  let round := calls (CustomQueueStrategy.getNextSong pl) (length q) in
  exists l,
    tracks_at pl q l
    /\ (forall st, (CustomQueueStrategy.setQueue q ;; round) st = (Ok l, start))
    /\ (forall p, (CustomQueueStrategy.reset ;; round)
                    {| CustomQueueStrategy.queueIndices := q;
                       CustomQueueStrategy.pos := p |} = (Ok l, start))
    /\ (round ;; round) start = (Ok l, start).
Proof.
  intros Hne Hq Hin start round.
  assert (Hlen : (0 < length q)%nat) by (destruct q; [congruence | cbn; lia]).
  destruct (cq_round_from pl q (length q) 0%nat Hq) as (l & Hrun & Hl);
    [lia | exact Hin |].
  rewrite Nat.Div0.mod_0_l in Hrun. cbn [Nat.add] in Hrun.
  rewrite Nat.Div0.mod_same in Hrun. rewrite drop_0, firstn_all in Hl.
  change (N.of_nat 0) with 0 in Hrun. fold start round in Hrun.
  exists l. split; [exact Hl|]. split; [|split].
  - intros st. unfold bind, CustomQueueStrategy.setQueue. fold start. now rewrite Hrun.
  - intros p. unfold bind, CustomQueueStrategy.reset.
    cbn [CustomQueueStrategy.queueIndices]. fold start. now rewrite Hrun.
  - unfold bind. now rewrite Hrun.
Qed.

Lemma customQueue_round_witness :
  exists l,
    tracks_at demo_playlist [2; 2; 0] l
    /\ (CustomQueueStrategy.setQueue [2; 2; 0] ;;
        calls (CustomQueueStrategy.getNextSong demo_playlist) 3) CustomQueueStrategy.init
       = (Ok l, {| CustomQueueStrategy.queueIndices := [2; 2; 0];
                   CustomQueueStrategy.pos := 0 |}).
Proof.
  destruct (customQueue_round demo_playlist [2; 2; 0]) as (l & Hl & Hset & _).
  - discriminate.
  - reflexivity.
  - repeat constructor.
  - exists l. split; [exact Hl | apply Hset].
Defined.

(** ** The engine against the strategy it drives *)

Lemma playSound_rendered (d : IAudioOutputDevice.t) (s : Song) (out : list string) :
  IAudioOutputDevice.playSound d s out = (Ok tt, (out ++ rendered d s)%list).
Proof. destruct d; reflexivity. Qed.

Section EngineRun.
Variables (e : AudioEngine.t) (pl ps dev : loc).
Variables (P : Playlist.t) (d : IAudioOutputDevice.t).
Hypothesis Hpl : AudioEngine.playlist e = Some pl.
Hypothesis Hps : AudioEngine.strategy e = Some ps.
Hypothesis Hdev : AudioEngine.device e = Some dev.

Lemma playNext_step w st r st' g' :
  playlists w !! pl = Some P -> strategies w !! ps = Some st ->
  devices w !! dev = Some d ->
  PlayStrategy.getNextSong P (st, rng w) = (r, (st', g')) ->
  let w1 := set_rng g' (set_strategies (<[ps := st']> (strategies w)) w) in
  AudioEngine.playNext (e, w)
  = (outcome_of r,
     (e, match r with
         | Ok s => set_cout (cout w ++ rendered d s)%list w1
         | _ => w1
         end)).
Proof.
  intros HP Hst Hd Hnext w1.
  unfold AudioEngine.playNext. rewrite Hpl, Hps, Hdev.
  unfold bind, liftW, Store.getNextSong. rewrite Hst, HP, Hnext. fold w1.
  destruct r as [s|err|]; [|reflexivity|reflexivity].
  unfold Store.playSound. replace (devices w1) with (devices w) by reflexivity.
  rewrite Hd. replace (cout w1) with (cout w) by reflexivity.
  now rewrite playSound_rendered.
Qed.

Lemma playMultiple_loop_refines (k : nat) : forall w st r st' g',
  playlists w !! pl = Some P -> strategies w !! ps = Some st ->
  devices w !! dev = Some d ->
  calls (PlayStrategy.getNextSong P) k (st, rng w) = (r, (st', g')) ->
  exists w',
    AudioEngine.playMultiple_loop k (e, w) = (outcome_of r, (e, w'))
    /\ strategies w' = <[ps := st']> (strategies w)
    /\ rng w' = g'
    /\ playlists w' = playlists w /\ devices w' = devices w
    /\ next_loc w' = next_loc w
    /\ forall l, r = Ok l -> cout w' = (cout w ++ concat (map (rendered d) l))%list.
Proof.
  induction k as [|k IH]; intros w st r st' g' HP Hst Hd Hrun.
  - cbn in Hrun. injection Hrun as <- <- <-. exists w.
    split; [reflexivity|]. split; [now rewrite (insert_id _ _ _ Hst)|].
    repeat (split; [reflexivity|]).
    intros l [= <-]. cbn. now rewrite app_nil_r.
  - cbn [calls AudioEngine.playMultiple_loop] in Hrun |- *. unfold bind at 1 in Hrun.
    destruct (PlayStrategy.getNextSong P (st, rng w)) as [r1 [st1 g1]] eqn:Hnext.
    pose proof (playNext_step w st r1 st1 g1 HP Hst Hd Hnext) as Hplay.
    cbn zeta in Hplay. unfold bind at 1. rewrite Hplay.
    destruct r1 as [a|err|]; cbn [outcome_of].
    + unfold bind at 1 in Hrun.
      destruct (calls (PlayStrategy.getNextSong P) k (st1, g1)) as [r2 [st2 g2]] eqn:Hk.
      set (w1 := set_cout _ _).
      destruct (IH w1 st1 r2 st2 g2) as (w' & Hloop & Hs' & Hg' & Hp' & Hd' & Hn' & Hc');
        [exact HP | apply lookup_insert_eq | exact Hd | exact Hk |].
      exists w'.
      assert (Hstate : st' = st2 /\ g' = g2 /\ outcome_of r = outcome_of r2
                       /\ forall l, r = Ok l -> exists l2, r2 = Ok l2 /\ l = a :: l2).
      { destruct r2 as [l2|err|]; cbn in Hrun; injection Hrun as <- <- <-;
          repeat (split; [reflexivity|]); intros l [= <-]; eauto. }
      destruct Hstate as (-> & -> & -> & Hr).
      split; [exact Hloop|]. split.
      { rewrite Hs'. subst w1. cbn. apply insert_insert_eq. }
      split; [exact Hg'|]. split; [exact Hp'|]. split; [exact Hd'|]. split; [exact Hn'|].
      intros l Hl. destruct (Hr l Hl) as (l2 & -> & ->).
      rewrite (Hc' l2 eq_refl). subst w1. cbn. now rewrite <- app_assoc.
    + injection Hrun as <- <- <-. eexists. split; [reflexivity|].
      repeat (split; [reflexivity|]). intros l [=].
    + injection Hrun as <- <- <-. eexists. split; [reflexivity|].
      repeat (split; [reflexivity|]). intros l [=].
Qed.
End EngineRun.

(** X4. On an engine whose three pointers are on live objects,
    [playMultiple(count)] does what [count] calls of [getNextSong] on the
    strategy object do: when they return the tracks [l], it returns, the
    lines the device renders for [l] are appended to the output in order,
    and the strategy object and the random source are left as the calls
    left them; when one of them throws, it throws the same error.  No
    playlist and no device is changed. *)
Theorem playMultiple_renders_strategy_run
    (e : AudioEngine.t) (w : World) (pl ps dev : loc)
    (P : Playlist.t) (st : PlayStrategy.t) (d : IAudioOutputDevice.t) (count : N) :
  AudioEngine.playlist e = Some pl -> AudioEngine.strategy e = Some ps ->
  AudioEngine.device e = Some dev ->
  playlists w !! pl = Some P -> strategies w !! ps = Some st ->
  devices w !! dev = Some d ->
  let run := calls (PlayStrategy.getNextSong P) (N.to_nat count) (st, rng w) in
  exists w',
    AudioEngine.playMultiple count (e, w) = (outcome_of (fst run), (e, w'))
    /\ strategies w' = <[ps := fst (snd run)]> (strategies w)
    /\ rng w' = snd (snd run)
    /\ playlists w' = playlists w /\ devices w' = devices w
    /\ forall l, fst run = Ok l ->
         cout w' = (cout w ++ concat (map (rendered d) l))%list.
Proof.
  intros Hpl Hps Hdev HP Hst Hd run.
  destruct run as [r [st' g']] eqn:Hrun. subst run.
  destruct (playMultiple_loop_refines e pl ps dev P d Hpl Hps Hdev
              (N.to_nat count) w st r st' g' HP Hst Hd Hrun)
    as (w' & Hloop & Hs' & Hg' & Hp' & Hd' & _ & Hc').
  exists w'. cbn [fst snd]. unfold AudioEngine.playMultiple.
  repeat (split; [assumption|]). exact Hc'.
Qed.

Lemma playMultiple_renders_strategy_run_witness :
  let e := MusicPlayerFacade.engine (fst demo_custom) in
  let w := snd demo_custom in
  exists w',
    AudioEngine.playMultiple 3 (e, w) = (Throw IndexOutOfRange, (e, w'))
    /\ strategies w' !! 3%positive
       = Some (PlayStrategy.CustomQueue
                 {| CustomQueueStrategy.queueIndices := [0; 5];
                    CustomQueueStrategy.pos := 1 |}).
Proof.
  intros e w.
  destruct (playMultiple_renders_strategy_run e w 1%positive 3%positive 2%positive
              demo_playlist
              (PlayStrategy.CustomQueue
                 {| CustomQueueStrategy.queueIndices := [0; 5];
                    CustomQueueStrategy.pos := 0 |})
              IAudioOutputDevice.WiredSpeakerAdapter 3
              eq_refl eq_refl eq_refl eq_refl eq_refl eq_refl)
    as (w' & Hplay & Hst & _).
  exists w'. split; [exact Hplay|]. rewrite Hst. apply lookup_insert_eq.
Defined.

(** ** A configured session plays *)

Lemma calls_sequential_lift P g (k : nat) : forall s l s',
  calls (SequentialPlayStrategy.getNextSong P) k s = (Ok l, s') ->
  calls (PlayStrategy.getNextSong P) k (PlayStrategy.Sequential s, g)
  = (Ok l, (PlayStrategy.Sequential s', g)).
Proof.
  induction k as [|k IH]; intros s l s' Hrun.
  - cbn in Hrun |- *. now injection Hrun as <- <-.
  - cbn [calls] in Hrun |- *. unfold bind at 1 in Hrun. unfold bind at 1.
    cbn [PlayStrategy.getNextSong].
    destruct (SequentialPlayStrategy.getNextSong P s) as [[a|err|] s1]; try discriminate.
    unfold bind at 1 in Hrun. unfold bind at 1.
    destruct (calls (SequentialPlayStrategy.getNextSong P) k s1) as [[l1|err|] s2] eqn:Hk;
      try discriminate.
    rewrite (IH s1 l1 s2 Hk). cbn in Hrun |- *. now injection Hrun as <- <-.
Qed.

Lemma calls_customQueue_lift P g (k : nat) : forall s l s',
  calls (CustomQueueStrategy.getNextSong P) k s = (Ok l, s') ->
  calls (PlayStrategy.getNextSong P) k (PlayStrategy.CustomQueue s, g)
  = (Ok l, (PlayStrategy.CustomQueue s', g)).
Proof.
  induction k as [|k IH]; intros s l s' Hrun.
  - cbn in Hrun |- *. now injection Hrun as <- <-.
  - cbn [calls] in Hrun |- *. unfold bind at 1 in Hrun. unfold bind at 1.
    cbn [PlayStrategy.getNextSong].
    destruct (CustomQueueStrategy.getNextSong P s) as [[a|err|] s1]; try discriminate.
    unfold bind at 1 in Hrun. unfold bind at 1.
    destruct (calls (CustomQueueStrategy.getNextSong P) k s1) as [[l1|err|] s2] eqn:Hk;
      try discriminate.
    rewrite (IH s1 l1 s2 Hk). cbn in Hrun |- *. now injection Hrun as <- <-.
Qed.

(** What a [configure] that returns leaves, in the terms the engine needs. *)
Lemma configure_named f w dt pst a st :
  facade_ok (f, w) ->
  DeviceFactory.adapter dt = Some a -> StrategyManager.fresh pst = Some st ->
  exists f' w' p dv,
    MusicPlayerFacade.configure dt pst (f, w) = (Ok tt, (f', w'))
    /\ MusicPlayerFacade.engine f'
       = {| AudioEngine.playlist :=
              Some (PlaylistManager.playlist (MusicPlayerFacade.playlistManager f));
            AudioEngine.strategy := Some p;
            AudioEngine.device := Some dv |}
    /\ MusicPlayerFacade.strategyPtr f' = Some p
    /\ DeviceManager.device (MusicPlayerFacade.deviceManager f') = Some dv
    /\ MusicPlayerFacade.playlistManager f' = MusicPlayerFacade.playlistManager f
    /\ playlists w' = playlists w
    /\ strategies w' !! p = Some (snd (PlayStrategy.reset st))
    /\ devices w' !! dv = Some a
    /\ cout w' = cout w /\ rng w' = rng w.
Proof.
  intros Hok Ha Hst. pose proof Hok as ((_ & _ & Hd) & _ & Hdev & _).
  rewrite (configure_exact f w Hok dt pst), Ha, Hst.
  do 2 eexists. exists (Pos.succ (next_loc w)), (next_loc w).
  split; [reflexivity|]. repeat (split; [reflexivity|]).
  split; [apply lookup_insert_eq|]. split; [|split; reflexivity].
  world_simpl. rewrite lookup_release_ne; [apply lookup_insert_eq|].
  intros E. specialize (Hd _ (Hdev _ E)). lia.
Qed.

Lemma configureCustom_named f w dt q a :
  facade_ok (f, w) -> DeviceFactory.adapter dt = Some a ->
  exists f' w' p dv,
    MusicPlayerFacade.configureCustom dt q (f, w) = (Ok tt, (f', w'))
    /\ MusicPlayerFacade.engine f'
       = {| AudioEngine.playlist :=
              Some (PlaylistManager.playlist (MusicPlayerFacade.playlistManager f));
            AudioEngine.strategy := Some p;
            AudioEngine.device := Some dv |}
    /\ MusicPlayerFacade.strategyPtr f' = Some p
    /\ DeviceManager.device (MusicPlayerFacade.deviceManager f') = Some dv
    /\ MusicPlayerFacade.playlistManager f' = MusicPlayerFacade.playlistManager f
    /\ playlists w' = playlists w
    /\ strategies w' !! p
       = Some (PlayStrategy.CustomQueue
                 {| CustomQueueStrategy.queueIndices := q; CustomQueueStrategy.pos := 0 |})
    /\ devices w' !! dv = Some a
    /\ cout w' = cout w /\ rng w' = rng w.
Proof.
  intros Hok Ha. pose proof Hok as ((_ & _ & Hd) & _ & Hdev & _).
  rewrite (configureCustom_exact f w Hok dt q), Ha.
  do 2 eexists. exists (Pos.succ (next_loc w)), (next_loc w).
  split; [reflexivity|]. repeat (split; [reflexivity|]).
  split; [apply lookup_insert_eq|]. split; [|split; reflexivity].
  world_simpl. rewrite lookup_release_ne; [apply lookup_insert_eq|].
  intros E. specialize (Hd _ (Hdev _ E)). lia.
Qed.

(** X5. In any session, with a playlist of [n > 0] tracks and a device kind
    that is an enumerator, [configure(kind, SEQUENTIAL)] followed by
    [playMultiple(n)] returns and appends to the output the lines of that
    device for the tracks of the playlist, in playlist order. *)
Theorem configure_sequential_plays_in_order c f w dt P :
  session c (f, w) -> device_type dt ->
  playlists w !! PlaylistManager.playlist (MusicPlayerFacade.playlistManager f) = Some P ->
  0 < Playlist.size P -> Playlist.fits P ->
  exists a s',
    DeviceFactory.adapter dt = Some a
    /\ (MusicPlayerFacade.configure dt SEQUENTIAL ;;
        MusicPlayerFacade.playMultiple (Playlist.size P)) (f, w) = (Ok tt, s')
    /\ cout (snd s') = (cout w ++ concat (map (rendered a) (Playlist.songs P)))%list.
Proof.
  intros Hs Hdt HP Hpos Hfits.
  pose proof (session_facade_ok _ _ Hs) as Hok.
  destruct (device_type_adapter dt Hdt) as [a Ha].
  destruct (configure_named f w dt SEQUENTIAL a
              (PlayStrategy.Sequential SequentialPlayStrategy.init) Hok Ha eq_refl)
    as (f' & w' & p & dv & Hconf & He & _ & _ & _ & Hpls & Hst & Hd & Hcout & _).
  rewrite <- Hpls in HP.
  assert (Hn : (0 < length (Playlist.songs P))%nat) by (unfold Playlist.size in Hpos; lia).
  pose proof (calls_sequential_lift P (rng w') _ _ _ _ (sequential_round P Hfits Hn)) as Hrun.
  destruct (playMultiple_loop_refines (MusicPlayerFacade.engine f') _ p dv P a
              ltac:(now rewrite He) ltac:(now rewrite He) ltac:(now rewrite He)
              _ w' _ _ _ _ HP Hst Hd Hrun)
    as (w'' & Hloop & _ & _ & _ & _ & _ & Hc).
  exists a. eexists. split; [exact Ha|].
  rewrite (bind_Ok _ _ _ _ _ Hconf).
  unfold MusicPlayerFacade.playMultiple, MusicPlayerFacade.on_engine, on_member,
    AudioEngine.playMultiple, Playlist.size.
  rewrite Nat2N.id, Hloop. split; [reflexivity|].
  cbn [snd]. now rewrite (Hc _ eq_refl), Hcout.
Qed.

Lemma configure_sequential_plays_in_order_witness :
  exists s',
    (MusicPlayerFacade.configure BLUETOOTH SEQUENTIAL ;;
     MusicPlayerFacade.playMultiple (Playlist.size demo_playlist)) demo_sequential
    = (Ok tt, s')
    /\ cout (snd s')
       = (cout (snd demo_sequential)
          ++ concat (map (rendered IAudioOutputDevice.BluetoothSpeakerAdapter)
                       (Playlist.songs demo_playlist)))%list.
Proof.
  destruct (configure_sequential_plays_in_order true
              (fst demo_sequential) (snd demo_sequential) BLUETOOTH demo_playlist
              demo_sequential_session)
    as (a & s' & Ha & Hrun & Hcout).
  - left. reflexivity.
  - reflexivity.
  - reflexivity.
  - reflexivity.
  - injection Ha as <-. exists s'. split; [exact Hrun | exact Hcout].
Defined.

(** X6. In any session, with a device kind that is an enumerator and a
    non-empty queue whose entries are all inside the playlist,
    [configureCustom(kind, queue)] followed by [playMultiple(len(queue))]
    returns and appends to the output the lines of that device for the
    tracks at the entries of the queue, in queue order. *)
Theorem configureCustom_plays_queue c f w dt q P :
  session c (f, w) -> device_type dt ->
  playlists w !! PlaylistManager.playlist (MusicPlayerFacade.playlistManager f) = Some P ->
  q <> [] -> N.of_nat (length q) < 2 ^ SIZE_WIDTH ->
  Forall (fun idx => idx < Playlist.size P) q ->
  exists a l s',
    DeviceFactory.adapter dt = Some a /\ tracks_at P q l
    /\ (MusicPlayerFacade.configureCustom dt q ;;
        MusicPlayerFacade.playMultiple (N.of_nat (length q))) (f, w) = (Ok tt, s')
    /\ cout (snd s') = (cout w ++ concat (map (rendered a) l))%list.
Proof.
  intros Hs Hdt HP Hne Hq Hin.
  pose proof (session_facade_ok _ _ Hs) as Hok.
  destruct (device_type_adapter dt Hdt) as [a Ha].
  destruct (configureCustom_named f w dt q a Hok Ha)
    as (f' & w' & p & dv & Hconf & He & _ & _ & _ & Hpls & Hst & Hd & Hcout & _).
  rewrite <- Hpls in HP.
  assert (Hlen : (0 < length q)%nat) by (destruct q; [congruence | cbn; lia]).
  destruct (cq_round_from P q (length q) 0%nat Hq) as (l & Hround & Hl);
    [lia | exact Hin |].
  rewrite Nat.Div0.mod_0_l in Hround. change (N.of_nat 0) with 0 in Hround.
  rewrite drop_0, firstn_all in Hl.
  pose proof (calls_customQueue_lift P (rng w') _ _ _ _ Hround) as Hrun.
  destruct (playMultiple_loop_refines (MusicPlayerFacade.engine f') _ p dv P a
              ltac:(now rewrite He) ltac:(now rewrite He) ltac:(now rewrite He)
              _ w' _ _ _ _ HP Hst Hd Hrun)
    as (w'' & Hloop & _ & _ & _ & _ & _ & Hc).
  exists a, l. eexists. split; [exact Ha|]. split; [exact Hl|].
  rewrite (bind_Ok _ _ _ _ _ Hconf).
  unfold MusicPlayerFacade.playMultiple, MusicPlayerFacade.on_engine, on_member,
    AudioEngine.playMultiple.
  rewrite Nat2N.id, Hloop. split; [reflexivity|].
  cbn [snd]. now rewrite (Hc _ eq_refl), Hcout.
Qed.

Lemma configureCustom_plays_queue_witness :
  exists l s',
    tracks_at demo_playlist [1; 0; 3; 2] l
    /\ (MusicPlayerFacade.configureCustom WIRED [1; 0; 3; 2] ;;
        MusicPlayerFacade.playMultiple 4) demo_sequential = (Ok tt, s')
    /\ cout (snd s')
       = (cout (snd demo_sequential)
          ++ concat (map (rendered IAudioOutputDevice.WiredSpeakerAdapter) l))%list.
Proof.
  destruct (configureCustom_plays_queue true
              (fst demo_sequential) (snd demo_sequential) WIRED [1; 0; 3; 2] demo_playlist
              demo_sequential_session)
    as (a & l & s' & Ha & Hl & Hrun & Hcout).
  - right. left. reflexivity.
  - reflexivity.
  - discriminate.
  - reflexivity.
  - repeat constructor.
  - injection Ha as <-. exists l, s'. split; [exact Hl|]. split; [exact Hrun | exact Hcout].
Defined.

Lemma addSongToPlaylist_exact f w P song :
  playlists w !! PlaylistManager.playlist (MusicPlayerFacade.playlistManager f) = Some P ->
  MusicPlayerFacade.addSongToPlaylist song (f, w)
  = (Ok tt,
     (f, set_playlists
           (<[PlaylistManager.playlist (MusicPlayerFacade.playlistManager f)
              := Playlist.addSong song P]> (playlists w)) w)).
Proof.
  intros HP. destruct f as [[l] dm sp en]. cbn in HP.
  unfold MusicPlayerFacade.addSongToPlaylist, MusicPlayerFacade.on_playlistManager,
    on_member, PlaylistManager.addSong, PlaylistManager.with_playlist.
  cbn. now rewrite HP.
Qed.

(** X7. The engine reads the playlist of the facade through its pointer,
    not a copy made by [configure]: in any session, with a device kind that
    is an enumerator, [configure(kind, SEQUENTIAL)], then
    [addSongToPlaylist(x)], then [playMultiple(n + 1)] on a playlist that
    had [n >= 0] tracks plays those tracks in order and then [x]. *)
Theorem song_added_after_configure_is_played c f w dt P x :
  session c (f, w) -> device_type dt ->
  playlists w !! PlaylistManager.playlist (MusicPlayerFacade.playlistManager f) = Some P ->
  Playlist.fits (Playlist.addSong x P) ->
  exists a s',
    DeviceFactory.adapter dt = Some a
    /\ (MusicPlayerFacade.configure dt SEQUENTIAL ;;
        MusicPlayerFacade.addSongToPlaylist x ;;
        MusicPlayerFacade.playMultiple (Playlist.size P + 1)) (f, w) = (Ok tt, s')
    /\ cout (snd s')
       = (cout w ++ concat (map (rendered a) (Playlist.songs P ++ [x])))%list.
Proof.
  intros Hs Hdt HP Hfits.
  pose proof (session_facade_ok _ _ Hs) as Hok.
  destruct (device_type_adapter dt Hdt) as [a Ha].
  destruct (configure_named f w dt SEQUENTIAL a
              (PlayStrategy.Sequential SequentialPlayStrategy.init) Hok Ha eq_refl)
    as (f' & w' & p & dv & Hconf & He & _ & _ & Hpm & Hpls & Hst & Hd & Hcout & _).
  rewrite <- Hpls, <- Hpm in HP.
  pose proof (addSongToPlaylist_exact f' w' P x HP) as Hadd.
  set (w2 := set_playlists _ w') in Hadd.
  set (P2 := Playlist.addSong x P) in *.
  assert (Hn : (0 < length (Playlist.songs P2))%nat).
  { subst P2. unfold Playlist.addSong. cbn. rewrite length_app. cbn. lia. }
  pose proof (calls_sequential_lift P2 (rng w2) _ _ _ _ (sequential_round P2 Hfits Hn))
    as Hrun.
  destruct (playMultiple_loop_refines (MusicPlayerFacade.engine f') _ p dv P2 a
              ltac:(now rewrite He) ltac:(now rewrite He) ltac:(now rewrite He)
              _ w2 _ _ _ _ ltac:(subst w2; rewrite Hpm; apply lookup_insert_eq) Hst Hd Hrun)
    as (w'' & Hloop & _ & _ & _ & _ & _ & Hc).
  exists a. eexists. split; [exact Ha|].
  rewrite (bind_Ok _ _ _ _ _ Hconf), (bind_Ok _ _ _ _ _ Hadd).
  unfold MusicPlayerFacade.playMultiple, MusicPlayerFacade.on_engine, on_member,
    AudioEngine.playMultiple.
  replace (N.to_nat (Playlist.size P + 1)) with (length (Playlist.songs P2)).
  2:{ subst P2. unfold Playlist.size, Playlist.addSong. cbn. rewrite length_app. cbn. lia. }
  rewrite Hloop. split; [reflexivity|].
  cbn [snd]. rewrite (Hc _ eq_refl). subst w2. cbn. now rewrite Hcout.
Qed.

Lemma song_added_after_configure_is_played_witness :
  exists s',
    (MusicPlayerFacade.configure HEADPHONES SEQUENTIAL ;;
     MusicPlayerFacade.addSongToPlaylist demo_a ;;
     MusicPlayerFacade.playMultiple (0 + 1)) demo_constructed = (Ok tt, s')
    /\ cout (snd s') = rendered IAudioOutputDevice.HeadphonesAdapter demo_a.
Proof.
  assert (Hs : session false demo_constructed).
  { apply session_start with (boot demo_rng); [apply store_ok_boot | reflexivity]. }
  destruct (song_added_after_configure_is_played false
              (fst demo_constructed) (snd demo_constructed) HEADPHONES
              Playlist.empty demo_a Hs)
    as (a & s' & Ha & Hrun & Hcout).
  - right. right. reflexivity.
  - reflexivity.
  - reflexivity.
  - injection Ha as <-. exists s'. split; [exact Hrun | exact Hcout].
Defined.

(** ** What the defensive branches do *)

Lemma adapter_None dt : ~ device_type dt -> DeviceFactory.adapter dt = None.
Proof.
  intros Hn. unfold DeviceFactory.adapter, device_type in *.
  destruct (Z.eqb_spec dt BLUETOOTH) as [|_]; [tauto|].
  destruct (Z.eqb_spec dt WIRED) as [|_]; [tauto|].
  destruct (Z.eqb_spec dt HEADPHONES) as [|_]; [tauto|]. reflexivity.
Qed.

(** X8. With a device kind that is no enumerator, [configure] and
    [configureCustom] throw DeviceCreationFailed before anything else is
    touched: the strategy the facade owns, the strategy objects, the
    playlists, the pointers of the engine and the output are as they were.
    But the device the facade owned has been destroyed and the manager
    holds a null pointer. *)
Theorem configure_bad_device c f w dt :
  session c (f, w) -> ~ device_type dt ->
  let old_dev := DeviceManager.device (MusicPlayerFacade.deviceManager f) in
  forall m,
    (exists pst, m = MusicPlayerFacade.configure dt pst)
    \/ (exists q, m = MusicPlayerFacade.configureCustom dt q) ->
    let s' := after m (f, w) in
    fst (m (f, w)) = Throw DeviceCreationFailed
    /\ DeviceManager.device (MusicPlayerFacade.deviceManager (fst s')) = None
    /\ (forall d, old_dev = Some d -> devices (snd s') !! d = None)
    /\ MusicPlayerFacade.strategyPtr (fst s') = MusicPlayerFacade.strategyPtr f
    /\ MusicPlayerFacade.engine (fst s') = MusicPlayerFacade.engine f
    /\ strategies (snd s') = strategies w
    /\ playlists (snd s') = playlists w
    /\ cout (snd s') = cout w.
Proof.
  intros Hs Hdt old_dev m Hm s'.
  pose proof (session_facade_ok _ _ Hs) as Hok.
  pose proof (adapter_None dt Hdt) as Ha.
  assert (E : m (f, w)
              = (Throw DeviceCreationFailed,
                 (MusicPlayerFacade.set_deviceManager {| DeviceManager.device := None |} f,
                  set_devices (release old_dev (devices w)) w))).
  { destruct Hm as [[pst ->]|[q ->]].
    - now rewrite (configure_exact f w Hok dt pst), Ha.
    - now rewrite (configureCustom_exact f w Hok dt q), Ha. }
  subst s'. unfold after. rewrite E. cbn [fst snd].
  split; [reflexivity|]. split; [reflexivity|]. split.
  { intros d Hd. cbn. rewrite Hd. apply lookup_release_eq. }
  destruct f; repeat split; reflexivity.
Qed.

Lemma configure_bad_device_witness :
  session true demo_sequential /\ ~ device_type 9%Z
  /\ fst (MusicPlayerFacade.configure 9%Z RANDOM demo_sequential)
     = Throw DeviceCreationFailed
  /\ strategies (snd (after (MusicPlayerFacade.configure 9%Z RANDOM) demo_sequential))
     = strategies (snd demo_sequential).
Proof.
  assert (Hdt : ~ device_type 9%Z) by (intros [H|[H|H]]; discriminate).
  split; [exact demo_sequential_session|]. split; [exact Hdt|].
  destruct (configure_bad_device true (fst demo_sequential) (snd demo_sequential) 9%Z
              demo_sequential_session Hdt (MusicPlayerFacade.configure 9%Z RANDOM)
              (or_introl (ex_intro _ RANDOM eq_refl)))
    as (Hr & _ & _ & _ & _ & Hst & _).
  split; [exact Hr | exact Hst].
Defined.

(** X9. In every session the playlist of the facade, the device it owns
    and the strategy it owns are alive, so no method destroys an object
    twice; [addSongToPlaylist] and [removeSongFromPlaylist] always return;
    and [configureCustom] returns exactly when the device kind is an
    enumerator and throws DeviceCreationFailed otherwise: its two other
    throws, for a strategy that was not built and for a cast that failed,
    never happen. *)
Theorem facade_methods_outcomes c f w :
  session c (f, w) ->
  (is_Some (playlists w !! PlaylistManager.playlist (MusicPlayerFacade.playlistManager f))
   /\ (forall d, DeviceManager.device (MusicPlayerFacade.deviceManager f) = Some d ->
         is_Some (devices w !! d))
   /\ (forall p, MusicPlayerFacade.strategyPtr f = Some p -> is_Some (strategies w !! p)))
  /\ (forall song, fst (MusicPlayerFacade.addSongToPlaylist song (f, w)) = Ok tt)
  /\ (forall index, fst (MusicPlayerFacade.removeSongFromPlaylist index (f, w)) = Ok tt)
  /\ (forall dt q,
        (device_type dt ->
           fst (MusicPlayerFacade.configureCustom dt q (f, w)) = Ok tt)
        /\ (~ device_type dt ->
              fst (MusicPlayerFacade.configureCustom dt q (f, w))
              = Throw DeviceCreationFailed)).
Proof.
  intros Hs. pose proof (session_facade_ok _ _ Hs) as Hok.
  pose proof Hok as (_ & Hpl & Hdev & Hsp).
  split; [now repeat split|].
  assert (Hwith : forall g,
    fst (MusicPlayerFacade.on_playlistManager (PlaylistManager.with_playlist g) (f, w))
    = Ok tt).
  { intros g. destruct Hpl as [P HP].
    unfold MusicPlayerFacade.on_playlistManager, on_member, PlaylistManager.with_playlist.
    now rewrite HP. }
  split; [intros song; apply Hwith|]. split; [intros index; apply Hwith|].
  intros dt q. rewrite (configureCustom_exact f w Hok dt q). split.
  - intros Hdt. destruct (device_type_adapter dt Hdt) as [a ->]. reflexivity.
  - intros Hdt. now rewrite (adapter_None dt Hdt).
Qed.

Lemma facade_methods_outcomes_witness :
  session true demo_sequential
  /\ fst (MusicPlayerFacade.removeSongFromPlaylist 17 demo_sequential) = Ok tt
  /\ fst (MusicPlayerFacade.configureCustom WIRED [] demo_sequential) = Ok tt.
Proof.
  destruct (facade_methods_outcomes true (fst demo_sequential) (snd demo_sequential)
              demo_sequential_session)
    as (_ & _ & Hrm & Hcc).
  split; [exact demo_sequential_session|]. split; [apply Hrm|].
  apply (Hcc WIRED []). right. left. reflexivity.
Defined.

(** ** No pointer is followed to a destroyed object *)

(** No strategy reads outside the playlist or outside its queue. *)
Lemma strategy_defined P st g :
  fst (PlayStrategy.getNextSong P (st, g)) <> Undefined.
Proof.
  destruct st as [s|s|s]; cbn [PlayStrategy.getNextSong].
  - unfold SequentialPlayStrategy.getNextSong.
    destruct (N.eqb_spec (Playlist.size P) 0) as [|Hne]; [discriminate|].
    destruct (lookup_lt_is_Some_2 (Playlist.songs P)
                (N.to_nat (SequentialPlayStrategy.index s mod Playlist.size P)))
      as [x Hx].
    { pose proof (N.mod_upper_bound (SequentialPlayStrategy.index s) _ Hne) as Hlt.
      unfold Playlist.size in Hlt |- *. lia. }
    unfold Playlist.at_. rewrite Hx. discriminate.
  - unfold RandomPlayStrategy.getNextSong.
    destruct (N.eqb_spec (Playlist.size P) 0) as [|Hne]; [discriminate|].
    unfold bind, Rng.rand.
    destruct (lookup_lt_is_Some_2 (Playlist.songs P)
                (N.to_nat (size_t_of_int (Rng.tape g (Rng.calls g)) mod Playlist.size P)))
      as [x Hx].
    { pose proof (size_t_of_int_mod_below (Rng.tape g (Rng.calls g)) _ Hne) as Hlt.
      unfold Playlist.size in Hlt |- *. lia. }
    unfold Playlist.at_. rewrite Hx. discriminate.
  - pose proof (cq_defined P s) as H.
    destruct (CustomQueueStrategy.getNextSong P s) as [r s']. exact H.
Qed.

Lemma engine_live_same e w w' :
  engine_live e w -> same_objects w w' -> engine_live e w'.
Proof.
  intros (pl & ps & dev & P & st & d & Hpl & Hps & Hdev & HP & Hst & Hd) (Sp & Ss & Sd & _).
  destruct (proj2 (Sp pl) (ex_intro _ P HP)) as [P' HP'].
  destruct (proj2 (Ss ps) (ex_intro _ st Hst)) as [st' Hst'].
  destruct (proj2 (Sd dev) (ex_intro _ d Hd)) as [d' Hd'].
  exists pl, ps, dev, P', st', d'. repeat split; assumption.
Qed.

Lemma playNext_live_defined e w :
  engine_live e w -> fst (AudioEngine.playNext (e, w)) <> Undefined.
Proof.
  intros (pl & ps & dev & P & st & d & Hpl & Hps & Hdev & HP & Hst & Hd).
  destruct (PlayStrategy.getNextSong P (st, rng w)) as [r [st' g']] eqn:Hnext.
  rewrite (playNext_step e pl ps dev P d Hpl Hps Hdev w st r st' g' HP Hst Hd Hnext).
  pose proof (strategy_defined P st (rng w)) as Hdef. rewrite Hnext in Hdef.
  destruct r; [discriminate | discriminate | contradiction].
Qed.

Lemma playMultiple_loop_live_defined n : forall e w,
  engine_live e w -> fst (AudioEngine.playMultiple_loop n (e, w)) <> Undefined.
Proof.
  induction n as [|n IH]; intros e w Hlive; [discriminate|].
  cbn [AudioEngine.playMultiple_loop]. unfold bind.
  pose proof (playNext_live_defined e w Hlive) as Hdef.
  destruct (playNext_same e w) as [He Hw].
  destruct (AudioEngine.playNext (e, w)) as [r [e1 w1]]. cbn [fst snd] in *. subst e1.
  destruct r as [[]|err|]; [|discriminate|contradiction].
  apply IH. now apply engine_live_same with w.
Qed.

Lemma synced_live f w :
  facade_ok (f, w) -> engine_synced (f, w) ->
  MusicPlayerFacade.engine f = AudioEngine.init
  \/ engine_live (MusicPlayerFacade.engine f) w.
Proof.
  intros (_ & [P HP] & Hdev & Hsp) [E|(p & d & Hp & Hd & E)]; [now left|right].
  cbn [fst] in *. destruct (Hsp p Hp) as [st Hst]. destruct (Hdev d Hd) as [a Ha].
  rewrite E.
  exists (PlaylistManager.playlist (MusicPlayerFacade.playlistManager f)), p, d, P, st, a.
  repeat split; assumption.
Qed.

(** X10. Call the engine in step when it is as constructed, or points to
    the playlist of the facade and to the device and strategy the facade
    owns.  A new facade is in step; every method keeps the engine in step,
    except a [configure] or [configureCustom] that throws; and in a session
    whose engine is in step, [playNext] and [playMultiple] never follow a
    null pointer or a pointer to a destroyed object, and never read past
    the end of a vector. *)
Theorem engine_in_step c s :
  session c s ->
  (c = false -> engine_synced s)
  /\ (engine_synced s ->
        fst (MusicPlayerFacade.playNext s) <> Undefined
        /\ (forall count, fst (MusicPlayerFacade.playMultiple count s) <> Undefined)
        /\ (forall c' m r s',
              api_call c' m -> m s = (r, s') -> c' = false \/ r = Ok tt ->
              engine_synced s')).
Proof.
  intros Hs. pose proof (session_facade_ok _ _ Hs) as Hok.
  split.
  { intros ->. left. exact (unconfigured_engine _ _ Hs eq_refl). }
  intros Hsync. destruct s as [f w].
  assert (Hplay : fst (MusicPlayerFacade.playNext (f, w)) <> Undefined
                  /\ forall count,
                       fst (MusicPlayerFacade.playMultiple count (f, w)) <> Undefined).
  { unfold MusicPlayerFacade.playNext, MusicPlayerFacade.playMultiple,
      MusicPlayerFacade.on_engine, on_member, AudioEngine.playMultiple.
    destruct (synced_live f w Hok Hsync) as [E|Hlive].
    - rewrite E. split; [discriminate|]. intros count.
      pose proof (playMultiple_loop_unbound (N.to_nat count) AudioEngine.init w
                    (or_introl eq_refl)) as [_ H].
      destruct (AudioEngine.playMultiple_loop _ _) as [r [e1 w1]]. exact H.
    - split.
      + pose proof (playNext_live_defined _ _ Hlive) as H.
        destruct (AudioEngine.playNext _) as [r [e1 w1]]. exact H.
      + intros count.
        pose proof (playMultiple_loop_live_defined (N.to_nat count) _ _ Hlive) as H.
        destruct (AudioEngine.playMultiple_loop _ _) as [r [e1 w1]]. exact H. }
  split; [exact (proj1 Hplay)|]. split; [exact (proj2 Hplay)|].
  intros c' m r s' Hcall Hm Hr.
  assert (Hkeep : forall f', MusicPlayerFacade.playlistManager f'
                             = MusicPlayerFacade.playlistManager f ->
                             MusicPlayerFacade.deviceManager f'
                             = MusicPlayerFacade.deviceManager f ->
                             MusicPlayerFacade.strategyPtr f'
                             = MusicPlayerFacade.strategyPtr f ->
                             MusicPlayerFacade.engine f' = MusicPlayerFacade.engine f ->
                             forall w', engine_synced (f', w')).
  { intros f' E1 E2 E3 E4 w'. unfold engine_synced in *. cbn [fst] in *.
    now rewrite E1, E2, E3, E4. }
  assert (Hwith : forall g,
    MusicPlayerFacade.on_playlistManager (PlaylistManager.with_playlist g) (f, w) = (r, s')
    -> engine_synced s').
  { intros g Hg. unfold MusicPlayerFacade.on_playlistManager, on_member in Hg.
    destruct (with_playlist_same g (MusicPlayerFacade.playlistManager f) w) as [E _].
    destruct (PlaylistManager.with_playlist g _) as [r0 [pm' w']]. cbn [fst snd] in E.
    subst pm'. injection Hg as <- <-. apply Hkeep; now destruct f. }
  assert (Hengine : forall (k : M (AudioEngine.t * World) unit),
    (forall e w0, fst (snd (k (e, w0))) = e) ->
    MusicPlayerFacade.on_engine k (f, w) = (r, s') -> engine_synced s').
  { intros k Hk Hg. unfold MusicPlayerFacade.on_engine, on_member in Hg.
    specialize (Hk (MusicPlayerFacade.engine f) w).
    destruct (k _) as [r0 [e' w']]. cbn [fst snd] in Hk. subst e'.
    injection Hg as <- <-. apply Hkeep; now destruct f. }
  destruct Hcall as [song|index| |count|dt pst|dt q].
  - exact (Hwith _ Hm).
  - exact (Hwith _ Hm).
  - apply (Hengine AudioEngine.playNext); [|exact Hm]. intros e w0. apply playNext_same.
  - apply (Hengine (AudioEngine.playMultiple count)); [|exact Hm].
    intros e w0. apply playMultiple_loop_same.
  - destruct Hr as [Hf | ->]; [discriminate|].
    rewrite (configure_exact f w Hok dt pst) in Hm.
    destruct (DeviceFactory.adapter dt); [|discriminate].
    destruct (StrategyManager.fresh pst); [|discriminate].
    injection Hm as <-. right. do 2 eexists. repeat split; reflexivity.
  - destruct Hr as [Hf | ->]; [discriminate|].
    rewrite (configureCustom_exact f w Hok dt q) in Hm.
    destruct (DeviceFactory.adapter dt); [|discriminate].
    injection Hm as <-. right. do 2 eexists. repeat split; reflexivity.
Qed.

Lemma engine_in_step_witness :
  session true demo_custom /\ engine_synced demo_custom
  /\ fst (MusicPlayerFacade.playMultiple 3 demo_custom) <> Undefined.
Proof.
  assert (Hs : session true demo_custom).
  { exact (session_step _ _ _ _ demo_loaded_session
             (call_configureCustom WIRED [0; 5]) ltac:(vm_compute; discriminate)). }
  assert (Hsync : engine_synced demo_custom).
  { right. exists 3%positive, 2%positive. repeat split; reflexivity. }
  split; [exact Hs|]. split; [exact Hsync|].
  exact (proj1 (proj2 (proj2 (engine_in_step true demo_custom Hs) Hsync)) 3).
Defined.

(** ** [playMultiple] composes *)

Lemma playMultiple_loop_add a b s :
  AudioEngine.playMultiple_loop (a + b) s
  = (AudioEngine.playMultiple_loop a ;; AudioEngine.playMultiple_loop b) s.
Proof.
  revert s. induction a as [|a IH]; intros s; [reflexivity|].
  cbn [Nat.add AudioEngine.playMultiple_loop]. unfold bind.
  destruct (AudioEngine.playNext s) as [[[]|err|] s1]; [|reflexivity|reflexivity].
  rewrite IH. reflexivity.
Qed.

(** X11. [playMultiple(a + b)] is [playMultiple(a)] followed, when it
    returns, by [playMultiple(b)]: same outcome and same state, also when
    a call throws on the way.  [playMultiple(0)] returns without touching
    anything, even on an engine that is not configured, while on such an
    engine every [playMultiple(count)] with [count > 0] throws
    NotConfigured and leaves the state as it was. *)
Theorem playMultiple_composes (s : AudioEngine.t * World) :
  (forall a b,
     AudioEngine.playMultiple (a + b) s
     = (AudioEngine.playMultiple a ;; AudioEngine.playMultiple b) s)
  /\ AudioEngine.playMultiple 0 s = (Ok tt, s)
  /\ (forall count,
        0 < count ->
        AudioEngine.playlist (fst s) = None \/ AudioEngine.strategy (fst s) = None
        \/ AudioEngine.device (fst s) = None ->
        AudioEngine.playMultiple count s = (Throw NotConfigured, s)).
Proof.
  split; [|split].
  - intros a b. unfold AudioEngine.playMultiple.
    rewrite N2Nat.inj_add. apply playMultiple_loop_add.
  - reflexivity.
  - intros count Hpos Hnull. destruct s as [e w]. unfold AudioEngine.playMultiple.
    destruct (N.to_nat count) as [|n] eqn:E; [lia|].
    cbn [AudioEngine.playMultiple_loop]. apply bind_Throw.
    now apply playNext_unbound.
Qed.

Lemma playMultiple_composes_witness :
  0 < 2
  /\ AudioEngine.playMultiple 2 (engine_of demo_loaded)
     = (Throw NotConfigured, engine_of demo_loaded).
Proof.
  assert (H : 0 < 2) by reflexivity.
  split; [exact H|].
  apply (playMultiple_composes (engine_of demo_loaded)); [exact H | left; reflexivity].
Defined.

(** ** Random, in a session *)

Lemma random_step P g :
  Playlist.size P <> 0 ->
  exists s,
    s ∈ Playlist.songs P
    /\ RandomPlayStrategy.getNextSong P g
       = (Ok s, {| Rng.tape := Rng.tape g; Rng.calls := S (Rng.calls g) |}).
Proof.
  intros Hne.
  destruct (lookup_lt_is_Some_2 (Playlist.songs P)
              (N.to_nat (size_t_of_int (Rng.tape g (Rng.calls g)) mod Playlist.size P)))
    as [s Hs].
  { pose proof (size_t_of_int_mod_below (Rng.tape g (Rng.calls g)) _ Hne) as Hlt.
    unfold Playlist.size in Hlt |- *. lia. }
  exists s. split; [exact (list_elem_of_lookup_2 _ _ _ Hs)|].
  unfold RandomPlayStrategy.getNextSong.
  destruct (N.eqb_spec (Playlist.size P) 0) as [|_]; [contradiction|].
  unfold bind, Rng.rand, Playlist.at_. now rewrite Hs.
Qed.

Lemma random_run P (k : nat) : forall g,
  Playlist.size P <> 0 ->
  exists l,
    calls (RandomPlayStrategy.getNextSong P) k g
    = (Ok l, {| Rng.tape := Rng.tape g; Rng.calls := (Rng.calls g + k)%nat |})
    /\ length l = k /\ Forall (fun s => s ∈ Playlist.songs P) l.
Proof.
  induction k as [|k IH]; intros g Hne.
  - exists []. rewrite Nat.add_0_r. destruct g. repeat split. constructor.
  - destruct (random_step P g Hne) as (s & Hin & Hstep).
    destruct (IH {| Rng.tape := Rng.tape g; Rng.calls := S (Rng.calls g) |} Hne)
      as (l & Hrun & Hlen & Hl).
    exists (s :: l). split; [|split].
    + cbn [calls]. rewrite (bind_Ok _ _ _ _ _ Hstep), (bind_Ok _ _ _ _ _ Hrun).
      unfold ret. cbn [Rng.tape Rng.calls]. f_equal. f_equal. lia.
    + cbn. now rewrite Hlen.
    + now constructor.
Qed.

Lemma calls_random_lift P st (k : nat) : forall g l g',
  calls (RandomPlayStrategy.getNextSong P) k g = (Ok l, g') ->
  calls (PlayStrategy.getNextSong P) k (PlayStrategy.Random st, g)
  = (Ok l, (PlayStrategy.Random st, g')).
Proof.
  induction k as [|k IH]; intros g l g' Hrun.
  - cbn in Hrun |- *. now injection Hrun as <- <-.
  - cbn [calls] in Hrun |- *. unfold bind at 1 in Hrun. unfold bind at 1.
    cbn [PlayStrategy.getNextSong].
    destruct (RandomPlayStrategy.getNextSong P g) as [[a|err|] g1]; try discriminate.
    unfold bind at 1 in Hrun. unfold bind at 1.
    destruct (calls (RandomPlayStrategy.getNextSong P) k g1) as [[l1|err|] g2] eqn:Hk;
      try discriminate.
    rewrite (IH g1 l1 g2 Hk). cbn in Hrun |- *. now injection Hrun as <- <-.
Qed.

(** X12. In any session, on a non-empty playlist and with a device kind
    that is an enumerator, [configure(kind, RANDOM)] followed by
    [playMultiple(count)] always returns, whatever [rand()] yields: it
    writes [count] lines, each the line of that device for a track of the
    playlist, and has called [rand()] exactly [count] times. *)
Theorem configure_random_plays_members c f w dt P count :
  session c (f, w) -> device_type dt ->
  playlists w !! PlaylistManager.playlist (MusicPlayerFacade.playlistManager f) = Some P ->
  0 < Playlist.size P ->
  exists a l s',
    DeviceFactory.adapter dt = Some a
    /\ (MusicPlayerFacade.configure dt RANDOM ;;
        MusicPlayerFacade.playMultiple count) (f, w) = (Ok tt, s')
    /\ length l = N.to_nat count
    /\ Forall (fun s => s ∈ Playlist.songs P) l
    /\ cout (snd s') = (cout w ++ concat (map (rendered a) l))%list
    /\ Rng.calls (rng (snd s')) = (Rng.calls (rng w) + N.to_nat count)%nat.
Proof.
  intros Hs Hdt HP Hpos.
  pose proof (session_facade_ok _ _ Hs) as Hok.
  destruct (device_type_adapter dt Hdt) as [a Ha].
  destruct (configure_named f w dt RANDOM a
              (PlayStrategy.Random RandomPlayStrategy.init) Hok Ha eq_refl)
    as (f' & w' & p & dv & Hconf & He & _ & _ & _ & Hpls & Hst & Hd & Hcout & Hrng).
  rewrite <- Hpls in HP.
  destruct (random_run P (N.to_nat count) (rng w')) as (l & Hpure & Hlen & Hl); [lia|].
  pose proof (calls_random_lift P RandomPlayStrategy.init _ _ _ _ Hpure) as Hrun.
  destruct (playMultiple_loop_refines (MusicPlayerFacade.engine f') _ p dv P a
              ltac:(now rewrite He) ltac:(now rewrite He) ltac:(now rewrite He)
              _ w' _ _ _ _ HP Hst Hd Hrun)
    as (w'' & Hloop & _ & Hg & _ & _ & _ & Hc).
  exists a, l. eexists. split; [exact Ha|].
  rewrite (bind_Ok _ _ _ _ _ Hconf).
  unfold MusicPlayerFacade.playMultiple, MusicPlayerFacade.on_engine, on_member,
    AudioEngine.playMultiple.
  rewrite Hloop. split; [reflexivity|]. split; [exact Hlen|]. split; [exact Hl|].
  cbn [snd]. rewrite (Hc _ eq_refl), Hcout, Hg, Hrng. split; reflexivity.
Qed.

Lemma configure_random_plays_members_witness :
  exists l s',
    (MusicPlayerFacade.configure BLUETOOTH RANDOM ;;
     MusicPlayerFacade.playMultiple 4) demo_sequential = (Ok tt, s')
    /\ length l = 4%nat
    /\ Forall (fun s => s ∈ Playlist.songs demo_playlist) l
    /\ Rng.calls (rng (snd s')) = 4%nat.
Proof.
  destruct (configure_random_plays_members true
              (fst demo_sequential) (snd demo_sequential) BLUETOOTH demo_playlist 4
              demo_sequential_session)
    as (a & l & s' & _ & Hrun & Hlen & Hl & _ & Hcalls).
  - left. reflexivity.
  - reflexivity.
  - reflexivity.
  - exists l, s'. split; [exact Hrun|]. split; [exact Hlen|]. split; [exact Hl|].
    exact Hcalls.
Defined.

(** ** Empty playlist and empty queue, in a session *)


